(** * homoHanzi: the record store of [homoHanzi.py]

    A shallow embedding of [ChineseCharacterSystem]: the domain values
    ([Radical], [Character]), the record codec ([_save_*], [_parse_*]),
    the store with its radical index ([add_radical], [add_character],
    [load_data], [get_characters_by_radical], [search_characters],
    [generate_stats]), the bulk importer ([import_from_csv]), the Anki
    export ([generate_anki_deck]) and the chart loader of the command line
    ([load_pinyin_chart]).

    Conventions of the embedding.
    - A Python [str] is a [string] of UTF-8 bytes.  Substring search,
      [split] and [join] on bytes agree with Python's on code points for
      well-formed UTF-8.
    - A Python [dict] is an insertion-ordered association list ([dict]),
      a [set] of strings is a [gset string]; a dict that is only read
      with [.get] (a YAML mapping, a CSV row) is a [gmap].
    - [int] is [Z].
    - The interpreter's Unicode-aware string methods and the [yaml] and
      [json] libraries are not part of the repository; they are the
      fields of the class [Runtime], over which everything is stated.
    - The object, the three document roots on disk and the console are
      one [State]; methods are computations in the monad [M].

    What is left out.
    - A file is named by its root, its subarea and its file name; [mkdir]
      changes no file and is omitted, and writing a file does not fail.
    - A row of the importer maps column names to cell texts; the [None]
      cells [csv.DictReader] produces for a short row are not modelled.
    - The chart loader starts from the rows [csv.reader] yields.
    - The practice sheet, which reads the store only, and the SQLite and
      JSON functions of the command line are not part of any statement
      below. *)

From Stdlib Require Import ZArith DecimalString.
From stdpp Require Import gmap strings list sorting.

Set Warnings "-register-all,-clear-no-such-hyp".

(** ** Python strings *)

Module Str.

Definition nl : string := String (Ascii.ascii_of_nat 10) EmptyString.
Definition dq : string := String (Ascii.ascii_of_nat 34) EmptyString.
Definition comma : Ascii.ascii := Ascii.ascii_of_nat 44.

(** [cat [a; b; c]] is [a + b + c]: the pieces of an f-string. *)
Definition cat (l : list string) : string := String.concat EmptyString l.

(** [lines l] is the text whose lines are [l] (joined by newlines). *)
Definition lines (l : list string) : string := String.concat nl l.

(** [sep.join(l)] *)
Definition join (sep : string) (l : list string) : string := String.concat sep l.

(** [s.startswith(p)] *)
Definition startswith (p s : string) : bool := String.prefix p s.

(** [q in s] *)
Fixpoint contains (q s : string) : bool :=
  match s with
  | EmptyString => startswith q EmptyString
  | String _ s' => startswith q s || contains q s'
  end.

(** [s.endswith(p)] *)
Fixpoint endswith (p s : string) : bool :=
  String.eqb p s ||
  match s with
  | EmptyString => false
  | String _ s' => endswith p s'
  end.

(** The rest of [s] after the prefix [p], when [s] starts with [p]. *)
Fixpoint strip_prefix (p s : string) : option string :=
  match p, s with
  | EmptyString, _ => Some s
  | String a p', String b s' => if Ascii.eqb a b then strip_prefix p' s' else None
  | String _ _, EmptyString => None
  end.

(** The text of [s] before the first occurrence of [needle]. *)
Fixpoint before_first (needle s : string) : option string :=
  if startswith needle s then Some EmptyString
  else match s with
       | EmptyString => None
       | String a s' => String a <$> before_first needle s'
       end.

(** [s.split(c)] for a one-character separator: never empty. *)
Fixpoint split (c : Ascii.ascii) (s : string) : list string :=
  match s with
  | EmptyString => [EmptyString]
  | String a s' =>
      let r := split c s' in
      if Ascii.eqb a c then EmptyString :: r
      else match r with
           | [] => [String a EmptyString]
           | w :: ws => String a w :: ws
           end
  end.

(** [str(n)] for an [int]. *)
Definition of_int (z : Z) : string := NilZero.string_of_int (Z.to_int z).

(** Truthiness of a [str]. *)
Definition nonempty (s : string) : bool := negb (String.eqb s EmptyString).

End Str.

(** ** Python dicts: insertion-ordered, one entry per key *)

Section dict.
Context {K V : Type} `{EqDecision K}.

Definition dict := list (K * V).

(** [d.get(k)] *)
Fixpoint dict_get (d : dict) (k : K) : option V :=
  match d with
  | [] => None
  | (k', v) :: d' => if decide (k = k') then Some v else dict_get d' k
  end.

(** [k in d] *)
Definition dict_mem (k : K) (d : dict) : bool :=
  match dict_get d k with Some _ => true | None => false end.

(** [d[k] = v]: an existing key keeps its place, a new one goes last. *)
Fixpoint dict_set (k : K) (v : V) (d : dict) : dict :=
  match d with
  | [] => [(k, v)]
  | (k', v') :: d' =>
      if decide (k = k') then (k, v) :: d' else (k', v') :: dict_set k v d'
  end.

Definition dict_keys (d : dict) : list K := d.*1.
Definition dict_values (d : dict) : list V := d.*2.
Definition dict_items (d : dict) : list (K * V) := d.
Definition dict_len (d : dict) : nat := length d.

(** What every dict satisfies: its keys are pairwise distinct. *)
Definition dict_wf (d : dict) : Prop := NoDup (dict_keys d).
End dict.
Global Arguments dict : clear implicits.

(** ** YAML values *)

Inductive yaml :=
| YNull
| YBool (b : bool)
| YInt (z : Z)
| YStr (s : string)
| YSeq (l : list yaml)
| YMap (m : gmap string yaml).

(** Truthiness of a loaded value ([if stroke_order:]). *)
Definition truthy (v : yaml) : bool :=
  match v with
  | YNull => false
  | YBool b => b
  | YInt z => negb (z =? 0)%Z
  | YStr s => Str.nonempty s
  | YSeq l => match l with [] => false | _ => true end
  | YMap m => negb (bool_decide (m = ∅))
  end.

(** ** Exceptions and results *)

Inductive exn :=
| ValueError (callee : string) (arg : yaml)  (* int(arg), RadicalType(arg), ... *)
| KeyError (key : string)            (* word['word'] on a dict without it *)
| FileNotFoundError                  (* read_text on a missing file *)
| AttributeError                     (* .get on a payload that is no mapping *)
| YAMLError                          (* yaml.safe_load on malformed text *)
| IllTyped (field : string).
(** [IllTyped f] is not a Python exception: it marks a payload whose field
    [f] has a YAML type other than the one the dataclass annotates.  Python
    stores such a value unchecked; the typed records below cannot, so the
    embedding stops there, and no [except] clause catches it. *)

Inductive result (A : Type) :=
| Ok (a : A)
| Raise (e : exn).
Global Arguments Ok {A} a.
Global Arguments Raise {A} e.

Global Instance result_ret : MRet result := λ A a, Ok a.
Global Instance result_bind : MBind result := λ A B f m,
  match m with
  | Ok a => f a
  | Raise e => Raise e
  end.

(** [[f(x) for x in l]]: the first exception ends the comprehension. *)
Fixpoint for_each {A B} (f : A → result B) (l : list A) : result (list B) :=
  match l with
  | [] => Ok []
  | x :: l' => y ← f x; ys ← for_each f l'; Ok (y :: ys)
  end.

(** ** The runtime the code calls into *)

Class Runtime := {
  (** [s.lower()] *)
  lower : string → string;
  (** [s.strip()] *)
  strip : string → string;
  (** [s.isdigit()] *)
  isdigit : string → bool;
  (** [int(s)] for a [str]; [None] is [ValueError] *)
  int_of_str : string → option Z;
  (** [yaml.dump(d, allow_unicode=True)]: keys are written sorted, so the
      text depends on the mapping only *)
  yaml_dump : gmap string yaml → string;
  (** [yaml.safe_load(text)]; [None] is a [YAMLError] *)
  yaml_safe_load : string → option yaml;
  (** [json.dumps(l, ensure_ascii=False)] for a list of strings *)
  json_dumps : list string → string;
}.

(** ** Domain model *)

Module RadicalType.
Inductive t := SEMANTIC | PHONETIC | BOTH | UNKNOWN.

Definition value (x : t) : string :=
  match x with
  | SEMANTIC => "semantic"
  | PHONETIC => "phonetic"
  | BOTH => "both"
  | UNKNOWN => "unknown"
  end.

Definition members : list t := [SEMANTIC; PHONETIC; BOTH; UNKNOWN].

(** [RadicalType(s)]: the member whose value is [s], or [ValueError]. *)
Definition call (s : string) : result t :=
  match find (λ m, String.eqb (value m) s) members with
  | Some m => Ok m
  | None => Raise (ValueError "RadicalType" (YStr s))
  end.

(** [RadicalType(v)] for a loaded value: only a [str] equals a member's value. *)
Definition call_any (v : yaml) : result t :=
  match v with
  | YStr s => call s
  | _ => Raise (ValueError "RadicalType" v)
  end.
End RadicalType.

Module StrokeType.
Inductive t :=
| HORIZONTAL | VERTICAL | LEFT_DIAGONAL | RIGHT_DIAGONAL
| DOT | HOOK | RISING | BEND.

Definition value (x : t) : string :=
  match x with
  | HORIZONTAL => "横"
  | VERTICAL => "竖"
  | LEFT_DIAGONAL => "撇"
  | RIGHT_DIAGONAL => "捺"
  | DOT => "点"
  | HOOK => "钩"
  | RISING => "提"
  | BEND => "折"
  end.

Definition members : list t :=
  [HORIZONTAL; VERTICAL; LEFT_DIAGONAL; RIGHT_DIAGONAL; DOT; HOOK; RISING; BEND].

(** [StrokeType(s)] *)
Definition call (s : string) : result t :=
  match find (λ m, String.eqb (value m) s) members with
  | Some m => Ok m
  | None => Raise (ValueError "StrokeType" (YStr s))
  end.

(** [StrokeType(v)] for a loaded value. *)
Definition call_any (v : yaml) : result t :=
  match v with
  | YStr s => call s
  | _ => Raise (ValueError "StrokeType" v)
  end.
End StrokeType.

Module Radical.
Record t := mk {
  character : string;
  pinyin : string;
  meaning : string;
  type : RadicalType.t;
  strokes : Z;
  stroke_order : list StrokeType.t;
  common_characters : list string;
  mnemonic : string;
}.

(** The constructor call of the source: the two list fields default to []. *)
Definition new character pinyin meaning type strokes mnemonic : t :=
  mk character pinyin meaning type strokes [] [] mnemonic.

Definition set_stroke_order (v : list StrokeType.t) (r : t) : t :=
  mk (character r) (pinyin r) (meaning r) (type r) (strokes r)
     v (common_characters r) (mnemonic r).
Definition set_common_characters (v : list string) (r : t) : t :=
  mk (character r) (pinyin r) (meaning r) (type r) (strokes r)
     (stroke_order r) v (mnemonic r).
End Radical.

Module Character.
Record t := mk {
  character : string;
  pinyin : string;
  tone : Z;
  meaning : list string;
  radicals : list string;
  strokes : Z;
  stroke_order : list StrokeType.t;
  components : list string;
  hsk_level : Z;
  frequency_rank : Z;
  mnemonic : string;
  example_words : list (gmap string string);
  tags : list string;
}.

(** The constructor call of [_parse_character_file]. *)
Definition new character pinyin tone meaning radicals strokes
    hsk_level frequency_rank mnemonic : t :=
  mk character pinyin tone meaning radicals strokes [] []
     hsk_level frequency_rank mnemonic [] [].

Definition set_stroke_order (v : list StrokeType.t) (c : t) : t :=
  mk (character c) (pinyin c) (tone c) (meaning c) (radicals c) (strokes c)
     v (components c) (hsk_level c) (frequency_rank c) (mnemonic c)
     (example_words c) (tags c).
Definition set_components (v : list string) (c : t) : t :=
  mk (character c) (pinyin c) (tone c) (meaning c) (radicals c) (strokes c)
     (stroke_order c) v (hsk_level c) (frequency_rank c) (mnemonic c)
     (example_words c) (tags c).
Definition set_hsk_level (v : Z) (c : t) : t :=
  mk (character c) (pinyin c) (tone c) (meaning c) (radicals c) (strokes c)
     (stroke_order c) (components c) v (frequency_rank c) (mnemonic c)
     (example_words c) (tags c).
Definition set_frequency_rank (v : Z) (c : t) : t :=
  mk (character c) (pinyin c) (tone c) (meaning c) (radicals c) (strokes c)
     (stroke_order c) (components c) (hsk_level c) v (mnemonic c)
     (example_words c) (tags c).
Definition set_example_words (v : list (gmap string string)) (c : t) : t :=
  mk (character c) (pinyin c) (tone c) (meaning c) (radicals c) (strokes c)
     (stroke_order c) (components c) (hsk_level c) (frequency_rank c)
     (mnemonic c) v (tags c).
Definition set_tags (v : list string) (c : t) : t :=
  mk (character c) (pinyin c) (tone c) (meaning c) (radicals c) (strokes c)
     (stroke_order c) (components c) (hsk_level c) (frequency_rank c)
     (mnemonic c) (example_words c) v.
End Character.

(** ** The state: the object, the document roots, the console *)

(** A file is named by its root directory, its subarea and its file name. *)
Definition path : Type := string * string * string.

Inductive event :=
| RadicalExists (key : string)            (* "Radical {key} already exists" *)
| CharacterExists (key : string)          (* "Character {key} already exists" *)
| ParseRadicalError (p : path) (e : exn)  (* "Error parsing radical file ..." *)
| ParseCharacterError (p : path) (e : exn)
| ImportError (e : exn).                  (* "Error importing from CSV: ..." *)

Record State := mkState {
  root_dir : string;
  vscode_dir : string;
  obsidian_dir : string;
  radicals : dict string Radical.t;
  characters : dict string Character.t;
  radical_index : dict string (gset string);
  files : gmap path string;
  stdout : list event;
}.

Definition set_radicals (v : dict string Radical.t) (w : State) : State :=
  mkState (root_dir w) (vscode_dir w) (obsidian_dir w) v (characters w)
          (radical_index w) (files w) (stdout w).
Definition set_characters (v : dict string Character.t) (w : State) : State :=
  mkState (root_dir w) (vscode_dir w) (obsidian_dir w) (radicals w) v
          (radical_index w) (files w) (stdout w).
Definition set_radical_index (v : dict string (gset string)) (w : State) : State :=
  mkState (root_dir w) (vscode_dir w) (obsidian_dir w) (radicals w) (characters w)
          v (files w) (stdout w).
Definition set_files (v : gmap path string) (w : State) : State :=
  mkState (root_dir w) (vscode_dir w) (obsidian_dir w) (radicals w) (characters w)
          (radical_index w) v (stdout w).
Definition set_stdout (v : list event) (w : State) : State :=
  mkState (root_dir w) (vscode_dir w) (obsidian_dir w) (radicals w) (characters w)
          (radical_index w) (files w) v.

(** Computations that read and write the state and may raise. *)
Definition M (A : Type) : Type := State → State * result A.

Global Instance M_ret : MRet M := λ A a w, (w, Ok a).
Global Instance M_bind : MBind M := λ A B f m w,
  match m w with
  | (w', Ok a) => f a w'
  | (w', Raise e) => (w', Raise e)
  end.

Definition get_state : M State := λ w, (w, Ok w).
Definition modify (f : State → State) : M unit := λ w, (f w, Ok tt).
Definition raise {A} (e : exn) : M A := λ w, (w, Raise e).
Definition lift {A} (r : result A) : M A := λ w, (w, r).

(** [print(...)] *)
Definition print (e : event) : M unit :=
  modify (λ w, set_stdout (stdout w ++ [e]) w).

(** [p.write_text(content)]; writing is assumed not to fail. *)
Definition write_text (p : path) (content : string) : M unit :=
  modify (λ w, set_files (<[p := content]> (files w)) w).

(** [p.read_text()] *)
Definition read_text (p : path) (w : State) : result string :=
  match files w !! p with
  | Some content => Ok content
  | None => Raise FileNotFoundError
  end.

(** [for x in l: body(x)] *)
Fixpoint for_ {A} (l : list A) (body : A → M unit) : M unit :=
  match l with
  | [] => mret tt
  | x :: l' => body x ≫= λ _, for_ l' body
  end.

(** [try: body / except Exception as e: handler(e)].  The marker [IllTyped]
    is no exception and passes through. *)
Definition try_except {A} (body : M A) (handler : exn → M A) : M A := λ w,
  match body w with
  | (w', Ok a) => (w', Ok a)
  | (w', Raise (IllTyped f)) => (w', Raise (IllTyped f))
  | (w', Raise e) => handler e w'
  end.

(** ** Record codec *)

Section codec.
Context {rt : Runtime}.

(** Truthiness of a list. *)
Definition nonempty {A} (l : list A) : bool :=
  match l with [] => false | _ => true end.

Definition ystrs (l : list string) : yaml := YSeq (YStr <$> l).
Definition stroke_values (l : list StrokeType.t) : list string :=
  StrokeType.value <$> l.
Definition yword (word : gmap string string) : yaml := YMap (YStr <$> word).

Definition md (key : string) : string := key +:+ ".md".
Definition arrow : string := " → ".
Definition link (target : string) : string := Str.cat ["[["; target; "]]"].
Definition radical_link (rad : string) : string :=
  Str.cat ["[[radicals/"; rad; "|"; rad; "]]"].

(** *** Encoding a radical *)

Definition radical_frontmatter (radical : Radical.t) : gmap string yaml :=
  let frontmatter : gmap string yaml :=
    <["mnemonic" := YStr (Radical.mnemonic radical)]>
    (<["strokes" := YInt (Radical.strokes radical)]>
    (<["type" := YStr (RadicalType.value (Radical.type radical))]>
    (<["meaning" := YStr (Radical.meaning radical)]>
    (<["pinyin" := YStr (Radical.pinyin radical)]>
    (<["character" := YStr (Radical.character radical)]> ∅))))) in
  let frontmatter :=
    if nonempty (Radical.stroke_order radical)
    then <["stroke_order" := ystrs (stroke_values (Radical.stroke_order radical))]> frontmatter
    else frontmatter in
  if nonempty (Radical.common_characters radical)
  then <["common_characters" := ystrs (Radical.common_characters radical)]> frontmatter
  else frontmatter.

(** The metadata block and the heading every variant starts with. *)
Definition radical_overview (radical : Radical.t) : list string :=
  [ "---"; "";
    Str.cat ["# "; Radical.character radical; " - "; Radical.meaning radical]; "";
    "## Overview";
    "- **Pinyin**: " +:+ Radical.pinyin radical;
    "- **Type**: " +:+ RadicalType.value (Radical.type radical);
    "- **Strokes**: " +:+ Str.of_int (Radical.strokes radical); "" ].

Definition radical_content (radical : Radical.t) : string :=
  Str.cat [ "---"; Str.nl; yaml_dump (radical_frontmatter radical);
    Str.lines (radical_overview radical ++
      [ "## Mnemonic";
        Radical.mnemonic radical; "";
        "## Common Characters";
        Str.join ", " (Radical.common_characters radical); "";
        "## Stroke Order";
        Str.join arrow (stroke_values (Radical.stroke_order radical)); "" ]) ].

Definition radical_obsidian_content (radical : Radical.t) : string :=
  Str.cat [ "---"; Str.nl; yaml_dump (radical_frontmatter radical);
    Str.lines (radical_overview radical ++
      [ "## Mnemonic";
        "> [!hint] Memory Aid";
        "> " +:+ Radical.mnemonic radical; "";
        "## Common Characters";
        Str.join ", " (link <$> Radical.common_characters radical); "";
        "## Stroke Order";
        Str.join arrow (stroke_values (Radical.stroke_order radical)); "";
        "## Practice";
        Str.cat ["![["; Radical.character radical; "_stroke_order.gif]]"]; "";
        "> [!question] Flashcard";
        Str.cat ["> What is the meaning of "; Radical.character radical; "?"];
        "> ";
        "> > [!success] Answer";
        "> > " +:+ Radical.meaning radical; "" ]) ].

Definition _save_radical (radical : Radical.t) : M unit :=
  w ← get_state;
  let content := radical_content radical in
  write_text (root_dir w, "radicals", md (Radical.character radical)) content ;;
  write_text (vscode_dir w, "radicals", md (Radical.character radical)) content ;;
  write_text (obsidian_dir w, "radicals", md (Radical.character radical))
             (radical_obsidian_content radical).

(** *** Encoding a character *)

Definition character_frontmatter (character : Character.t) : gmap string yaml :=
  let frontmatter : gmap string yaml :=
    <["mnemonic" := YStr (Character.mnemonic character)]>
    (<["strokes" := YInt (Character.strokes character)]>
    (<["radicals" := ystrs (Character.radicals character)]>
    (<["meaning" := ystrs (Character.meaning character)]>
    (<["tone" := YInt (Character.tone character)]>
    (<["pinyin" := YStr (Character.pinyin character)]>
    (<["character" := YStr (Character.character character)]> ∅)))))) in
  let frontmatter :=
    if nonempty (Character.stroke_order character)
    then <["stroke_order" := ystrs (stroke_values (Character.stroke_order character))]> frontmatter
    else frontmatter in
  let frontmatter :=
    if nonempty (Character.components character)
    then <["components" := ystrs (Character.components character)]> frontmatter
    else frontmatter in
  let frontmatter :=
    if nonempty (Character.example_words character)
    then <["example_words" := YSeq (yword <$> Character.example_words character)]> frontmatter
    else frontmatter in
  let frontmatter :=
    if nonempty (Character.tags character)
    then <["tags" := ystrs (Character.tags character)]> frontmatter
    else frontmatter in
  let frontmatter :=
    if negb (Character.hsk_level character =? 0)%Z
    then <["hsk_level" := YInt (Character.hsk_level character)]> frontmatter
    else frontmatter in
  if negb (Character.frequency_rank character =? 0)%Z
  then <["frequency_rank" := YInt (Character.frequency_rank character)]> frontmatter
  else frontmatter.

(** [n or "N/A"] inside an f-string *)
Definition or_na (n : Z) : string :=
  if (n =? 0)%Z then "N/A" else Str.of_int n.

Definition pronunciation (character : Character.t) : string :=
  Str.cat [Character.pinyin character; " (Tone ";
           Str.of_int (Character.tone character); ")"].

(** [word[k]] *)
Definition word_get (word : gmap string string) (k : string) : result string :=
  match word !! k with
  | Some v => Ok v
  | None => Raise (KeyError k)
  end.

Definition example_word_line (word : gmap string string) : result string :=
  w ← word_get word "word";
  p ← word_get word "pinyin";
  m ← word_get word "meaning";
  Ok (Str.cat ["- "; w; " ("; p; "): "; m; Str.nl]).

(** [for word in example_words: content += f"- ..."] *)
Fixpoint append_example_words (content : string)
    (words : list (gmap string string)) : result string :=
  match words with
  | [] => Ok content
  | word :: words' =>
      line ← example_word_line word;
      append_example_words (content +:+ line) words'
  end.

Definition character_head (character : Character.t)
    (radicals components : list string) (mnemonic : list string) : string :=
  Str.cat [ "---"; Str.nl; yaml_dump (character_frontmatter character);
    Str.lines (
      [ "---"; "";
        Str.cat ["# "; Character.character character; " - ";
                 Str.join ", " (Character.meaning character)]; "";
        "## Overview";
        "- **Pinyin**: " +:+ pronunciation character;
        "- **Radicals**: " +:+ Str.join ", " radicals;
        "- **Components**: " +:+ Str.join ", " components;
        "- **Strokes**: " +:+ Str.of_int (Character.strokes character);
        "- **HSK Level**: " +:+ or_na (Character.hsk_level character);
        "- **Frequency Rank**: " +:+ or_na (Character.frequency_rank character); "";
        "## Mnemonic" ] ++ mnemonic ++
      [ ""; "## Example Words"; "" ]) ].

Definition stroke_order_tail (character : Character.t) : string :=
  Str.lines [""; "## Stroke Order"; ""] +:+
  Str.join arrow (stroke_values (Character.stroke_order character)).

Definition character_content (character : Character.t) : result string :=
  content ← append_example_words
    (character_head character (Character.radicals character)
       (Character.components character) [Character.mnemonic character])
    (Character.example_words character);
  Ok (content +:+ stroke_order_tail character).

Definition quoted (s : string) : string := Str.cat [Str.dq; s; Str.dq].

Definition code_snippet (character : Character.t) : string :=
  Str.lines [ "";
    "## Code Snippet";
    "```python";
    "# Character metadata";
    "char_data = {";
    Str.cat ["    "; quoted "character"; ": "; quoted (Character.character character); ","];
    Str.cat ["    "; quoted "pinyin"; ": "; quoted (Character.pinyin character); ","];
    Str.cat ["    "; quoted "tone"; ": "; Str.of_int (Character.tone character); ","];
    Str.cat ["    "; quoted "meaning"; ": "; json_dumps (Character.meaning character); ","];
    Str.cat ["    "; quoted "radicals"; ": "; json_dumps (Character.radicals character); ","];
    Str.cat ["    "; quoted "strokes"; ": "; Str.of_int (Character.strokes character); ","];
    Str.cat ["    "; quoted "hsk_level"; ": "; Str.of_int (Character.hsk_level character); ","];
    Str.cat ["    "; quoted "frequency_rank"; ": ";
             Str.of_int (Character.frequency_rank character)];
    "}";
    "";
    "# Export for Anki";
    "anki_fields = f" +:+ quoted
      "{character.character}\t{character.pinyin}\t{', '.join(character.meaning)}\t{character.mnemonic}";
    "```";
    "" ].

Definition character_obsidian_content (character : Character.t) : result string :=
  content ← append_example_words
    (character_head character (radical_link <$> Character.radicals character)
       (link <$> Character.components character)
       ["> [!hint] Memory Aid"; "> " +:+ Character.mnemonic character])
    (Character.example_words character);
  Ok (Str.cat [ content; stroke_order_tail character;
    Str.lines [ ""; "";
      "## Practice";
      Str.cat ["![["; Character.character character; "_stroke_order.gif]]"]; "";
      "> [!question] Flashcard";
      Str.cat ["> What is the meaning of "; Character.character character; "?"];
      "> ";
      "> > [!success] Answer";
      "> > " +:+ Str.join ", " (Character.meaning character); "";
      "> [!question] Flashcard";
      Str.cat ["> How do you pronounce "; Character.character character; "?"];
      "> ";
      "> > [!success] Answer";
      "> > " +:+ pronunciation character; "" ] ]).

Definition _save_character (character : Character.t) : M unit :=
  w ← get_state;
  content ← lift (character_content character);
  write_text (root_dir w, "characters", md (Character.character character)) content ;;
  write_text (vscode_dir w, "characters", md (Character.character character))
             (content +:+ code_snippet character) ;;
  obsidian_content ← lift (character_obsidian_content character);
  write_text (obsidian_dir w, "characters", md (Character.character character))
             obsidian_content.
End codec.

(** *** Decoding *)

Section decode.
Context {rt : Runtime}.

(** [frontmatter.get(k, default)] *)
Definition fm_get (frontmatter : gmap string yaml) (k : string) (dflt : yaml) : yaml :=
  default dflt (frontmatter !! k).

(** The loaded value as the type the dataclass field annotates. *)
Definition as_str (field : string) (v : yaml) : result string :=
  match v with YStr s => Ok s | _ => Raise (IllTyped field) end.
Definition as_int (field : string) (v : yaml) : result Z :=
  match v with YInt z => Ok z | _ => Raise (IllTyped field) end.
Definition as_seq (field : string) (v : yaml) : result (list yaml) :=
  match v with YSeq l => Ok l | _ => Raise (IllTyped field) end.
Definition as_strs (field : string) (v : yaml) : result (list string) :=
  l ← as_seq field v; for_each (as_str field) l.
Definition as_word (field : string) (v : yaml) : result (gmap string string) :=
  match v with
  | YMap m =>
      kvs ← for_each (λ kv, s ← as_str field kv.2; Ok (kv.1, s)) (map_to_list m);
      Ok (list_to_map kvs)
  | _ => Raise (IllTyped field)
  end.
Definition as_words (field : string) (v : yaml) : result (list (gmap string string)) :=
  l ← as_seq field v; for_each (as_word field) l.

(** [re.search(r"^---\n(.*?)\n---", content, re.DOTALL)] and its group 1:
    the text between the opening line and the first later line that
    starts with three hyphens. *)
Definition frontmatter_block (content : string) : option string :=
  rest ← Str.strip_prefix ("---" +:+ Str.nl) content;
  Str.before_first (Str.nl +:+ "---") rest.

(** [yaml.safe_load(block)], then used through [.get]. *)
Definition load_mapping (block : string) : result (gmap string yaml) :=
  match yaml_safe_load block with
  | None => Raise YAMLError
  | Some (YMap m) => Ok m
  | Some _ => Raise AttributeError
  end.

Definition radical_of_frontmatter (frontmatter : gmap string yaml) : result Radical.t :=
  character ← as_str "character" (fm_get frontmatter "character" (YStr ""));
  pinyin ← as_str "pinyin" (fm_get frontmatter "pinyin" (YStr ""));
  meaning ← as_str "meaning" (fm_get frontmatter "meaning" (YStr ""));
  type ← RadicalType.call_any (fm_get frontmatter "type" (YStr "unknown"));
  strokes ← as_int "strokes" (fm_get frontmatter "strokes" (YInt 0));
  mnemonic ← as_str "mnemonic" (fm_get frontmatter "mnemonic" (YStr ""));
  let radical := Radical.new character pinyin meaning type strokes mnemonic in
  let stroke_order := fm_get frontmatter "stroke_order" (YSeq []) in
  radical ← (if truthy stroke_order
             then items ← as_seq "stroke_order" stroke_order;
                  strokes ← for_each StrokeType.call_any items;
                  Ok (Radical.set_stroke_order strokes radical)
             else Ok radical);
  let common_chars := fm_get frontmatter "common_characters" (YSeq []) in
  if truthy common_chars
  then chars ← as_strs "common_characters" common_chars;
       Ok (Radical.set_common_characters chars radical)
  else Ok radical.

Definition character_of_frontmatter (frontmatter : gmap string yaml)
    : result Character.t :=
  char ← as_str "character" (fm_get frontmatter "character" (YStr ""));
  pinyin ← as_str "pinyin" (fm_get frontmatter "pinyin" (YStr ""));
  tone ← as_int "tone" (fm_get frontmatter "tone" (YInt 0));
  meaning ← as_strs "meaning" (fm_get frontmatter "meaning" (YSeq []));
  radicals ← as_strs "radicals" (fm_get frontmatter "radicals" (YSeq []));
  strokes ← as_int "strokes" (fm_get frontmatter "strokes" (YInt 0));
  hsk_level ← as_int "hsk_level" (fm_get frontmatter "hsk_level" (YInt 0));
  frequency_rank ← as_int "frequency_rank" (fm_get frontmatter "frequency_rank" (YInt 0));
  mnemonic ← as_str "mnemonic" (fm_get frontmatter "mnemonic" (YStr ""));
  let character := Character.new char pinyin tone meaning radicals strokes
                     hsk_level frequency_rank mnemonic in
  let stroke_order := fm_get frontmatter "stroke_order" (YSeq []) in
  character ← (if truthy stroke_order
               then items ← as_seq "stroke_order" stroke_order;
                    strokes ← for_each StrokeType.call_any items;
                    Ok (Character.set_stroke_order strokes character)
               else Ok character);
  let components := fm_get frontmatter "components" (YSeq []) in
  character ← (if truthy components
               then l ← as_strs "components" components;
                    Ok (Character.set_components l character)
               else Ok character);
  let example_words := fm_get frontmatter "example_words" (YSeq []) in
  character ← (if truthy example_words
               then l ← as_words "example_words" example_words;
                    Ok (Character.set_example_words l character)
               else Ok character);
  let tags := fm_get frontmatter "tags" (YSeq []) in
  if truthy tags
  then l ← as_strs "tags" tags; Ok (Character.set_tags l character)
  else Ok character.

(** The body of the [try] of [_parse_radical_file], after the file is read. *)
Definition parse_radical (content : string) : result (option Radical.t) :=
  match frontmatter_block content with
  | Some block =>
      frontmatter ← load_mapping block;
      radical ← radical_of_frontmatter frontmatter;
      Ok (Some radical)
  | None => Ok None
  end.

Definition parse_character (content : string) : result (option Character.t) :=
  match frontmatter_block content with
  | Some block =>
      frontmatter ← load_mapping block;
      character ← character_of_frontmatter frontmatter;
      Ok (Some character)
  | None => Ok None
  end.

Definition _parse_radical_file (file_path : path) : M (option Radical.t) :=
  try_except
    (w ← get_state;
     content ← lift (read_text file_path w);
     lift (parse_radical content))
    (λ e, print (ParseRadicalError file_path e) ;; mret None).

Definition _parse_character_file (file_path : path) : M (option Character.t) :=
  try_except
    (w ← get_state;
     content ← lift (read_text file_path w);
     lift (parse_character content))
    (λ e, print (ParseCharacterError file_path e) ;; mret None).
End decode.

(** ** Store *)

Section store.
Context {rt : Runtime}.

(** [if radical not in index: index[radical] = set()] then
    [index[radical].add(key)] *)
Definition index_add (radical key : string)
    (index : dict string (gset string)) : dict string (gset string) :=
  let index := if dict_mem radical index then index else dict_set radical ∅ index in
  match dict_get index radical with
  | Some chars => dict_set radical (chars ∪ {[key]}) index
  | None => index
  end.

(** The loop [for radical in character.radicals: ...] of [add_character]
    and [load_data]. *)
Definition update_radical_index (character : Character.t) : M unit :=
  for_ (Character.radicals character) (λ radical,
    modify (λ w, set_radical_index
                   (index_add radical (Character.character character) (radical_index w)) w)).

Definition add_radical (radical : Radical.t) : M bool :=
  w ← get_state;
  if dict_mem (Radical.character radical) (radicals w)
  then print (RadicalExists (Radical.character radical)) ;; mret false
  else
    modify (λ w, set_radicals (dict_set (Radical.character radical) radical (radicals w)) w) ;;
    _save_radical radical ;;
    mret true.

Definition add_character (character : Character.t) : M bool :=
  w ← get_state;
  if dict_mem (Character.character character) (characters w)
  then print (CharacterExists (Character.character character)) ;; mret false
  else
    modify (λ w, set_characters
                   (dict_set (Character.character character) character (characters w)) w) ;;
    update_radical_index character ;;
    _save_character character ;;
    mret true.

(** [dir.glob("*.md")]: the files of a subarea, in the directory's order. *)
Definition glob_md (dir area : string) (w : State) : list path :=
  filter (λ p : path, p.1.1 = dir ∧ p.1.2 = area ∧ Str.endswith ".md" p.2 = true)
         (map_to_list (files w)).*1.

(** The body of the first loop of [load_data]: one radical file. *)
Definition load_radical (file_path : path) : M unit :=
  radical ← _parse_radical_file file_path;
  match radical with
  | Some radical =>
      modify (λ w, set_radicals
                     (dict_set (Radical.character radical) radical (radicals w)) w)
  | None => mret tt
  end.

(** The body of its second loop: one character file. *)
Definition load_character (file_path : path) : M unit :=
  character ← _parse_character_file file_path;
  match character with
  | Some character =>
      modify (λ w, set_characters
                     (dict_set (Character.character character) character (characters w)) w) ;;
      update_radical_index character
  | None => mret tt
  end.

Definition load_data : M unit :=
  w ← get_state;
  for_ (glob_md (root_dir w) "radicals" w) load_radical ;;
  for_ (glob_md (root_dir w) "characters" w) load_character.

(** [ChineseCharacterSystem(root_dir, vscode_dir, obsidian_dir)] over the
    files [fs]. *)
Definition init (root vscode obsidian : string) (fs : gmap path string)
    : State * result unit :=
  load_data (mkState root vscode obsidian [] [] [] fs []).

Definition get_characters_by_radical (radical : string) (w : State)
    : list Character.t :=
  match dict_get (radical_index w) radical with
  | None => []
  | Some chars => omap (dict_get (characters w)) (elements chars)
  end.

(** One turn of the loop of [search_characters]: each [if] appends and
    [continue]s. *)
Definition search_step (query : string) (results : list Character.t)
    (char : Character.t) : list Character.t :=
  if Str.contains query (Character.character char) then results ++ [char]
  else if Str.contains (lower query) (lower (Character.pinyin char))
  then results ++ [char]
  else if existsb (λ meaning, Str.contains (lower query) (lower meaning))
                  (Character.meaning char)
  then results ++ [char]
  else if existsb (λ tag, Str.contains (lower query) (lower tag))
                  (Character.tags char)
  then results ++ [char]
  else results.

Definition search_characters (query : string) (w : State) : list Character.t :=
  foldl (search_step query) [] (dict_values (characters w)).

(** *** Statistics *)

(** [if k not in d: d[k] = 0] then [d[k] += 1] *)
Definition count_up (d : dict Z nat) (k : Z) : dict Z nat :=
  let d := if dict_mem k d then d else dict_set k 0 d in
  match dict_get d k with
  | Some n => dict_set k (n + 1) d
  | None => d
  end.

(** [sorted(l, key=count, reverse=True)]: stable, largest count first. *)
Fixpoint insert_by_count (x : string * nat) (l : list (string * nat))
    : list (string * nat) :=
  match l with
  | [] => [x]
  | y :: l' => if x.2 <? y.2 then y :: insert_by_count x l' else x :: y :: l'
  end.
Definition sorted_by_count (l : list (string * nat)) : list (string * nat) :=
  foldr insert_by_count [] l.

Record Stats := mkStats {
  total_characters : nat;
  total_radicals : nat;
  characters_by_hsk_level : dict Z nat;
  characters_by_stroke_count : dict Z nat;
  most_common_radicals : list (string * nat);
}.

Definition generate_stats (w : State) : Stats :=
  let by_hsk := foldl (λ d char, count_up d (Character.hsk_level char))
                      [] (dict_values (characters w)) in
  let by_strokes := foldl (λ d char, count_up d (Character.strokes char))
                          [] (dict_values (characters w)) in
  let radical_count : dict string nat :=
    foldl (λ d item, dict_set item.1 (size item.2) d) [] (dict_items (radical_index w)) in
  mkStats (dict_len (characters w)) (dict_len (radicals w)) by_hsk by_strokes
          (take 10 (sorted_by_count (dict_items radical_count))).
End store.

(** ** Bulk importer *)

(** A row of [csv.DictReader]: cell texts by column name. *)
Abbreviation row := (gmap string string).

Section importer.
Context {rt : Runtime}.

(** [row.get(k, "")] *)
Definition cell (r : row) (k : string) : string := default "" (r !! k).

(** [int(s)] *)
Definition int (s : string) : result Z :=
  match int_of_str s with
  | Some z => Ok z
  | None => Raise (ValueError "int" (YStr s))
  end.

(** [int(row.get(k, 0))] *)
Definition int_cell (r : row) (k : string) : result Z :=
  match r !! k with
  | Some s => int s
  | None => Ok 0%Z
  end.

(** [[x.strip() for x in s.split(",")]] *)
Definition split_strip (s : string) : list string :=
  strip <$> Str.split Str.comma s.

Definition radical_of_row (r : row) : result Radical.t :=
  type ← RadicalType.call (default "unknown" (r !! "type"));
  strokes ← int_cell r "strokes";
  let radical := Radical.new (cell r "character") (cell r "pinyin") (cell r "meaning")
                   type strokes (cell r "mnemonic") in
  let stroke_order := cell r "stroke_order" in
  radical ← (if Str.nonempty stroke_order
             then l ← for_each StrokeType.call (split_strip stroke_order);
                  Ok (Radical.set_stroke_order l radical)
             else Ok radical);
  let common_chars := cell r "common_characters" in
  Ok (if Str.nonempty common_chars
      then Radical.set_common_characters (split_strip common_chars) radical
      else radical).

Definition character_of_row (r : row) : result Character.t :=
  let meaning_list := split_strip (cell r "meaning") in
  let radicals_list := split_strip (cell r "radicals") in
  tone ← int_cell r "tone";
  strokes ← int_cell r "strokes";
  let character := Character.new (cell r "character") (cell r "pinyin") tone
                     meaning_list radicals_list strokes 0 0 (cell r "mnemonic") in
  let stroke_order := cell r "stroke_order" in
  character ← (if Str.nonempty stroke_order
               then l ← for_each StrokeType.call (split_strip stroke_order);
                    Ok (Character.set_stroke_order l character)
               else Ok character);
  let components := cell r "components" in
  let character :=
    if Str.nonempty components
    then Character.set_components (split_strip components) character
    else character in
  let hsk_level := cell r "hsk_level" in
  character ← (if Str.nonempty hsk_level && isdigit hsk_level
               then n ← int hsk_level; Ok (Character.set_hsk_level n character)
               else Ok character);
  let freq_rank := cell r "frequency_rank" in
  character ← (if Str.nonempty freq_rank && isdigit freq_rank
               then n ← int freq_rank; Ok (Character.set_frequency_rank n character)
               else Ok character);
  let tags := cell r "tags" in
  Ok (if Str.nonempty tags
      then Character.set_tags (split_strip tags) character
      else character).

(** [row.get("is_radical", "").lower() == "true"] *)
Definition is_radical (r : row) : bool :=
  String.eqb (lower (cell r "is_radical")) "true".

(** The body of the loop over the rows, before [count += 1]. *)
Definition import_row (r : row) : M unit :=
  if is_radical r
  then radical ← lift (radical_of_row r); add_radical radical ;; mret tt
  else character ← lift (character_of_row r); add_character character ;; mret tt.

Fixpoint import_rows (rows : list row) (count : nat) : M nat :=
  match rows with
  | [] => mret count
  | r :: rows' => import_row r ;; import_rows rows' (S count)
  end.

(** [import_from_csv], from the rows the reader yields. *)
Definition import_from_csv (rows : list row) : M nat :=
  try_except (import_rows rows 0)
             (λ e, print (ImportError e) ;; mret 0).
End importer.

(** ** Pinyin chart loader *)

Section pinyin_chart.
Context {rt : Runtime}.

(** [headers[col_num] if col_num < len(headers) else f"col_{col_num}"] *)
Definition col_name (headers : list string) (col_num : nat) : string :=
  match headers !! col_num with
  | Some name => name
  | None => "col_" +:+ Str.of_int (Z.of_nat col_num)
  end.

(** [value.strip() if value.strip() else None] *)
Definition cell_value (value : string) : option string :=
  if Str.nonempty (strip value) then Some (strip value) else None.

(** [for col_num, value in enumerate(row): row_data[col_name] = ...],
    from the column [col_num] on. *)
Fixpoint fill_row (headers : list string) (col_num : nat) (row : list string)
    (row_data : dict string (option string)) : dict string (option string) :=
  match row with
  | [] => row_data
  | value :: row' =>
      fill_row headers (S col_num) row'
        (dict_set (col_name headers col_num) (cell_value value) row_data)
  end.

(** The [row_data] of a row: the loop, run from an empty dict. *)
Definition row_data (headers row : list string) : dict string (option string) :=
  fill_row headers 0 row [].

(** [load_pinyin_chart], from the rows [csv.reader] yields; [None] is the
    [StopIteration] that [next(reader)] raises on a file without rows. *)
Definition load_pinyin_chart (rows : list (list string))
    : option (list (dict string (option string))) :=
  match rows with
  | [] => None
  | headers :: rows' =>
      Some (foldl (λ pinyin_data row,
                     if nonempty row then pinyin_data ++ [row_data headers row]
                     else pinyin_data)
                  [] rows')
  end.

(** [row_data.get(k)] as [insert_pinyin_row] reads a column. *)
Definition row_get (data : dict string (option string)) (k : string) : option string :=
  default None (dict_get data k).
End pinyin_chart.

(** ** Anki deck *)

Section anki.

(** The tab and the line break. *)
Definition tab_char : Ascii.ascii := Ascii.ascii_of_nat 9.

Definition nl_char : Ascii.ascii := Ascii.ascii_of_nat 10.

Definition tab : string := String tab_char EmptyString.

(** ["character\tpinyin\tmeaning\tmnemonic\tradicals\tstrokes\n"] *)
Definition anki_header : string :=
  Str.cat ["character"; tab; "pinyin"; tab; "meaning"; tab; "mnemonic"; tab;
           "radicals"; tab; "strokes"; Str.nl].

(** The line of a character: its grapheme, pinyin, meanings, mnemonic,
    radicals and stroke count, tab-separated. *)
Definition anki_character_line (char : Character.t) : string :=
  Str.cat [Character.character char; tab; Character.pinyin char; tab;
           Str.join ", " (Character.meaning char); tab; Character.mnemonic char; tab;
           Str.join ", " (Character.radicals char); tab;
           Str.of_int (Character.strokes char); Str.nl].

(** The line of a radical; its radicals column is empty. *)
Definition anki_radical_line (radical : Radical.t) : string :=
  Str.cat [Radical.character radical; tab; Radical.pinyin radical; tab;
           Radical.meaning radical; tab; Radical.mnemonic radical; tab; tab;
           Str.of_int (Radical.strokes radical); Str.nl].

(** What [generate_anki_deck] writes to the file it opens: the header,
    a line per character and, on request, a line per radical. *)
Definition anki_deck (include_radicals : bool) (w : State) : string :=
  let text := foldl (λ text char, text +:+ anki_character_line char)
                    anki_header (dict_values (characters w)) in
  if include_radicals
  then foldl (λ text radical, text +:+ anki_radical_line radical)
             text (dict_values (radicals w))
  else text.

(** [generate_anki_deck(output_path, include_radicals)].  Creating the
    directory and opening the file are assumed not to fail, so the
    [except] branch is not reached. *)
Definition generate_anki_deck (output_path : path) (include_radicals : bool) : M bool :=
  w ← get_state;
  write_text output_path (anki_deck include_radicals w) ;;
  mret true.
End anki.

(** ** A reference runtime

    An instance of [Runtime] for evaluating the code on examples: ASCII
    case mapping and white space, decimal numerals, and a block-style YAML
    subset (plain or single-quoted one-line scalars, integers, [[]], block
    sequences of scalars and of one-level mappings). *)

Module Ref.

Definition byte (a : Ascii.ascii) : nat := Ascii.nat_of_ascii a.

Definition lower_char (a : Ascii.ascii) : Ascii.ascii :=
  if (65 <=? byte a) && (byte a <=? 90) then Ascii.ascii_of_nat (byte a + 32) else a.

Fixpoint lower (s : string) : string :=
  match s with
  | EmptyString => EmptyString
  | String a s' => String (lower_char a) (lower s')
  end.

Definition is_space (a : Ascii.ascii) : bool :=
  (byte a =? 32) || ((9 <=? byte a) && (byte a <=? 13)).

Fixpoint lstrip (s : string) : string :=
  match s with
  | EmptyString => EmptyString
  | String a s' => if is_space a then lstrip s' else s
  end.

Fixpoint rstrip (s : string) : string :=
  match s with
  | EmptyString => EmptyString
  | String a s' =>
      match rstrip s' with
      | EmptyString => if is_space a then EmptyString else String a EmptyString
      | r => String a r
      end
  end.

Definition strip (s : string) : string := rstrip (lstrip s).

Definition is_digit (a : Ascii.ascii) : bool := (48 <=? byte a) && (byte a <=? 57).

Fixpoint all_chars (p : Ascii.ascii → bool) (s : string) : bool :=
  match s with
  | EmptyString => true
  | String a s' => p a && all_chars p s'
  end.

Definition isdigit (s : string) : bool := Str.nonempty s && all_chars is_digit s.

Fixpoint digits_value (acc : Z) (s : string) : Z :=
  match s with
  | EmptyString => acc
  | String a s' => digits_value (10 * acc + Z.of_nat (byte a - 48)) s'
  end.

Definition unsigned (s : string) : option Z :=
  if isdigit s then Some (digits_value 0 s) else None.

Definition signed (s : string) : option Z :=
  match s with
  | String a s' =>
      if byte a =? 45 then Z.opp <$> unsigned s'
      else if byte a =? 43 then unsigned s'
      else unsigned s
  | EmptyString => None
  end.

Definition int_of_str (s : string) : option Z := signed (strip s).

(** *** The YAML subset *)

Definition squote : string := "'".

Definition is_quoted (s : string) : bool :=
  (2 <=? String.length s) && Str.startswith squote s && Str.endswith squote s.

Definition unquote (s : string) : string :=
  String.substring 1 (String.length s - 2) s.

Definition plain_char (a : Ascii.ascii) : bool :=
  negb (byte a <? 33) && negb (byte a =? 39) && negb (byte a =? 34)
  && negb (byte a =? 58) && negb (byte a =? 35) && negb (byte a =? 45)
  && negb (byte a =? 91) && negb (byte a =? 93) && negb (byte a =? 123)
  && negb (byte a =? 125) && negb (byte a =? 44).

Definition reserved (s : string) : bool :=
  bool_decide (s ∈ ["null"; "true"; "false"; "~"]).

Definition plain_ok (s : string) : bool :=
  Str.nonempty s && all_chars plain_char s && negb (reserved s)
  && negb (match signed s with Some _ => true | None => false end).

Definition emit_scalar (v : yaml) : string :=
  match v with
  | YNull => "null"
  | YBool b => if b then "true" else "false"
  | YInt z => Str.of_int z
  | YStr s => if plain_ok s then s else Str.cat [squote; s; squote]
  | YSeq _ => "[]"
  | YMap _ => "{}"
  end.

Definition emit_pair (kv : string * yaml) : string :=
  Str.cat [kv.1; ": "; emit_scalar kv.2].

Definition emit_item (v : yaml) : string :=
  match v with
  | YMap m => Str.cat ["- "; Str.join (Str.nl +:+ "  ") (emit_pair <$> map_to_list m); Str.nl]
  | _ => Str.cat ["- "; emit_scalar v; Str.nl]
  end.

Definition emit_entry (kv : string * yaml) : string :=
  match kv.2 with
  | YSeq (item :: items) => Str.cat ([kv.1; ":"; Str.nl] ++ (emit_item <$> item :: items))
  | _ => emit_pair kv +:+ Str.nl
  end.

Definition yaml_dump (m : gmap string yaml) : string :=
  Str.cat (emit_entry <$> map_to_list m).

Definition parse_scalar (t : string) : yaml :=
  if is_quoted t then YStr (unquote t)
  else if bool_decide (t = "[]") then YSeq []
  else if bool_decide (t ∈ ["null"; "~"; ""]) then YNull
  else if bool_decide (t = "true") then YBool true
  else if bool_decide (t = "false") then YBool false
  else match signed t with
       | Some z => YInt z
       | None => YStr t
       end.

(** [key: value] or [key:] *)
Definition parse_pair (line : string) : option (string * string) :=
  match Str.before_first ": " line with
  | Some k => v ← Str.strip_prefix (k +:+ ": ") line; Some (k, v)
  | None => if Str.endswith ":" line
            then Some (String.substring 0 (String.length line - 1) line, EmptyString)
            else None
  end.

Definition parse_item (t : string) : yaml :=
  if is_quoted t then parse_scalar t
  else match parse_pair t with
       | Some (k, v) => YMap {[ k := parse_scalar v ]}
       | None => parse_scalar t
       end.

(** The entries read so far, the last one first. *)
Definition add_item (item : yaml) (acc : list (string * yaml))
    : option (list (string * yaml)) :=
  match acc with
  | (k, YSeq items) :: acc' => Some ((k, YSeq (items ++ [item])) :: acc')
  | (k, YNull) :: acc' => Some ((k, YSeq [item]) :: acc')
  | _ => None
  end.

Definition extend_item (k : string) (v : yaml) (acc : list (string * yaml))
    : option (list (string * yaml)) :=
  match acc with
  | (key, YSeq items) :: acc' =>
      match last items with
      | Some (YMap m) =>
          Some ((key, YSeq (take (length items - 1) items ++ [YMap (<[k := v]> m)])) :: acc')
      | _ => None
      end
  | _ => None
  end.

Definition parse_line (acc : option (list (string * yaml))) (line : string)
    : option (list (string * yaml)) :=
  acc ← acc;
  if bool_decide (line = "") then Some acc
  else match Str.strip_prefix "- " line with
  | Some t => add_item (parse_item t) acc
  | None =>
      match Str.strip_prefix "  " line with
      | Some t => kv ← parse_pair t; extend_item kv.1 (parse_scalar kv.2) acc
      | None => kv ← parse_pair line; Some ((kv.1, parse_scalar kv.2) :: acc)
      end
  end.

Definition yaml_safe_load (text : string) : option yaml :=
  acc ← foldl parse_line (Some []) (Str.split (Ascii.ascii_of_nat 10) text);
  Some (YMap (list_to_map (reverse acc))).

(** [["a", "b"]], without escapes. *)
Definition json_dumps (l : list string) : string :=
  Str.cat ["["; Str.join ", " ((λ s, Str.cat [Str.dq; s; Str.dq]) <$> l); "]"].

Definition runtime : Runtime :=
  Build_Runtime lower strip isdigit int_of_str yaml_dump yaml_safe_load json_dumps.

(** [s] without its last character. *)
Definition chomp (s : string) : string :=
  String.substring 0 (String.length s - 1) s.

(** An empty system over three distinct roots. *)
Definition empty : State := mkState "notes" "vscode" "vault" [] [] [] ∅ [].

End Ref.

(** ** Example values *)

Module Examples.

Definition mu : Radical.t :=
  Radical.mk "木" "mù" "wood" RadicalType.SEMANTIC 4
    [StrokeType.HORIZONTAL; StrokeType.VERTICAL; StrokeType.LEFT_DIAGONAL;
     StrokeType.RIGHT_DIAGONAL]
    ["林"; "森"] "a tree with branches".

Definition lin : Character.t :=
  Character.mk "林" "lín" 2 ["forest"; "woods"] ["木"; "木"] 8
    [StrokeType.HORIZONTAL; StrokeType.VERTICAL] ["木"] 3 120 "two trees"
    [ {[ "word" := "森林"; "pinyin" := "sēnlín"; "meaning" := "forest" ]} ]
    ["nature"].

(** The same key as [lin], other contents. *)
Definition lin' : Character.t :=
  Character.new "林" "lin" 0 [] [] 0 0 0 "".



Definition row_he : row :=
  {[ "is_radical" := "false"; "character" := "河"; "pinyin" := "hé"; "tone" := "2";
     "meaning" := "river"; "radicals" := "水"; "strokes" := "8";
     "hsk_level" := "n/a"; "frequency_rank" := "unknown" ]}.



(** The store after [add_radical(mu)] and [add_character(lin)]. *)
Definition with_mu : State := (add_radical (rt:=Ref.runtime) mu Ref.empty).1.
Definition with_lin : State := (add_character (rt:=Ref.runtime) lin with_mu).1.

End Examples.

(** ** Further example values *)

Module Cases.

(** A character whose example word has no pinyin and no meaning. *)
Definition sen : Character.t :=
  Character.mk "森" "sēn" 1 ["forest"] ["木"] 12 [] [] 0 0 "three trees"
    [ {[ "word" := "森林" ]} ] [].


(** The character of [Examples.row_he] once its radicals column is gone. *)
Definition he_bare : Character.t :=
  Character.new "河" "hé" 2 ["river"] [""] 8 0 0 "".

(** A chart with a header of three columns, an empty line, a short row and
    a row with one cell too many. *)
Definition chart : list (list string) :=
  [ ["group"; "b"; "p"]; []; ["a"; " ba "]; ["o"; "bo"; "  "; "extra"] ].

(** The store reopened on the files [Examples.with_lin] left. *)
Definition reopened : State :=
  (init (rt:=Ref.runtime) "notes" "vscode" "vault" (files Examples.with_lin)).1.

End Cases.

(** ** Notions used in the statements *)

Section notions.
Context {rt : Runtime}.

(** What a computation leaves alone: everything but the files. *)
Definition same_memory (w w' : State) : Prop :=
  root_dir w' = root_dir w ∧ vscode_dir w' = vscode_dir w ∧
  obsidian_dir w' = obsidian_dir w ∧ radicals w' = radicals w ∧
  characters w' = characters w ∧ radical_index w' = radical_index w ∧
  stdout w' = stdout w.

(** The index once the loop over [character.radicals] has run. *)
Definition index_after (character : Character.t)
    (index : dict string (gset string)) : dict string (gset string) :=
  foldl (λ index radical, index_add radical (Character.character character) index)
        index (Character.radicals character).

(** The state between the in-memory update and the write of the files. *)
Definition inserted (character : Character.t) (w : State) : State :=
  set_radical_index (index_after character (radical_index w))
    (set_characters (dict_set (Character.character character) character (characters w)) w).

(** [index[radical]] exists and contains [key]. *)
Definition indexed (index : dict string (gset string)) (radical key : string) : Prop :=
  ∃ chars, dict_get index radical = Some chars ∧ key ∈ chars.


(** [w'] has everything [w] had: the same roots, the keys of both
    collections, the files. *)
Definition grows (w w' : State) : Prop :=
  root_dir w' = root_dir w ∧
  (∀ key, dict_mem key (characters w) = true → dict_mem key (characters w') = true) ∧
  (∀ key, dict_mem key (radicals w) = true → dict_mem key (radicals w') = true) ∧
  (∀ p, is_Some (files w !! p) → is_Some (files w' !! p)).

(** The matching rule of the search, in the words of its description:
    the query occurs in the grapheme as it is, or, ignoring case, in the
    pinyin, in a meaning or in a tag. *)
Definition matches (query : string) (char : Character.t) : bool :=
  Str.contains query (Character.character char)
  || Str.contains (lower query) (lower (Character.pinyin char))
  || existsb (λ meaning, Str.contains (lower query) (lower meaning)) (Character.meaning char)
  || existsb (λ tag, Str.contains (lower query) (lower tag)) (Character.tags char).

(** The order of [most_common_radicals]: the larger count comes first. *)
Definition by_count_desc (x y : string * nat) : Prop := y.2 ≤ x.2.

(** The value [import_row] builds from a row before it calls the store. *)
Definition row_value (r : row) : result (Radical.t + Character.t) :=
  if is_radical r
  then radical ← radical_of_row r; Ok (inl radical)
  else character ← character_of_row r; Ok (inr character).





(** The line break and three hyphens that close the metadata block. *)
Definition fence : string := Str.nl +:+ "---".

(** The YAML library round-trips the mapping [fm]: its dump is a text that
    ends in a line break and has no line starting with three hyphens, and
    loading it gives the mapping back. *)
Definition yaml_faithful (fm : gmap string yaml) : Prop :=
  ∃ block, yaml_dump fm = block +:+ Str.nl ∧
           Str.contains fence (yaml_dump fm) = false ∧
           yaml_safe_load block = Some (YMap fm).

(** [text] starts with the metadata block that holds [dump]. *)
Definition framed (dump text : string) : Prop :=
  ∃ tail, text = "---" +:+ Str.nl +:+ dump +:+ "---" +:+ tail.

(** A character whose example words all have their three entries can be
    rendered, so saving it succeeds. *)
Definition complete_words (c : Character.t) : Prop :=
  Forall (λ word : gmap string string,
            is_Some (word !! "word") ∧ is_Some (word !! "pinyin") ∧
            is_Some (word !! "meaning"))
         (Character.example_words c).


End notions.

(** ** Notions used in the further properties *)

Section further_notions.
Context {rt : Runtime}.

(** Every entry of the two collections is stored under the [character]
    field of its value, and no key occurs twice. *)
Definition store_ok (w : State) : Prop :=
  dict_wf (radicals w) ∧ dict_wf (characters w) ∧ dict_wf (radical_index w) ∧
  (∀ key radical, dict_get (radicals w) key = Some radical →
                  Radical.character radical = key) ∧
  (∀ key character, dict_get (characters w) key = Some character →
                    Character.character character = key).

(** The index names stored characters only, each under its own radicals. *)
Definition index_sound (w : State) : Prop :=
  ∀ radical key, indexed (radical_index w) radical key →
    ∃ character, dict_get (characters w) key = Some character ∧
                 radical ∈ Character.radicals character.

(** Every stored character is indexed under each of its radicals. *)
Definition index_complete (w : State) : Prop :=
  ∀ key character radical,
    dict_get (characters w) key = Some character →
    radical ∈ Character.radicals character →
    indexed (radical_index w) radical (Character.character character).

(** The same object and files; the console may differ. *)
Definition same_store (w w' : State) : Prop :=
  root_dir w' = root_dir w ∧ vscode_dir w' = vscode_dir w ∧
  obsidian_dir w' = obsidian_dir w ∧ radicals w' = radicals w ∧
  characters w' = characters w ∧ radical_index w' = radical_index w ∧
  files w' = files w.

(** The index lists exactly the stored characters, under their radicals. *)
Definition index_exact (w : State) : Prop := index_sound w ∧ index_complete w.

(** The three files [_save_character] writes, in the order it writes them. *)
Definition character_files (character : Character.t) (content obsidian_content : string)
    (w : State) : gmap path string :=
  <[(obsidian_dir w, "characters", md (Character.character character)) := obsidian_content]>
  (<[(vscode_dir w, "characters", md (Character.character character))
       := content +:+ code_snippet character]>
  (<[(root_dir w, "characters", md (Character.character character)) := content]> (files w))).


(** The entries an example word must have to be rendered. *)
Definition word_keys : list string := ["word"; "pinyin"; "meaning"].

(** The console of [w'] is the console of [w] with more lines after it. *)
Definition prints_more (w w' : State) : Prop := ∃ out, stdout w' = stdout w ++ out.

(** The file [p] of the files [fs] decodes to the radical [radical]. *)
Definition radical_file (fs : gmap path string) (p : path) (radical : Radical.t) : Prop :=
  ∃ content, fs !! p = Some content ∧ parse_radical content = Ok (Some radical).

Definition character_file (fs : gmap path string) (p : path) (character : Character.t)
    : Prop :=
  ∃ content, fs !! p = Some content ∧ parse_character content = Ok (Some character).

(** What loading leaves alone and what it only extends. *)
Definition read_only (w w' : State) : Prop :=
  files w' = files w ∧ root_dir w' = root_dir w ∧ vscode_dir w' = vscode_dir w ∧
  obsidian_dir w' = obsidian_dir w ∧ grows w w' ∧ prints_more w w'.

(** The radicals a file of the list decodes to are stored. *)
Definition radical_loaded (p : path) (w : State) : Prop :=
  ∀ radical, radical_file (files w) p radical →
             dict_mem (Radical.character radical) (radicals w) = true.

Definition character_loaded (p : path) (w : State) : Prop :=
  ∀ character, character_file (files w) p character →
    dict_mem (Character.character character) (characters w) = true ∧
    ∀ radical, radical ∈ Character.radicals character →
               indexed (radical_index w) radical (Character.character character).

(** Where a stored radical comes from: it was there, or a file of the
    list holds it. *)
Definition radicals_from (fs : gmap path string) (old : dict string Radical.t)
    (l : list path) (w : State) : Prop :=
  files w = fs ∧
  ∀ key radical, dict_get (radicals w) key = Some radical →
    dict_get old key = Some radical ∨ ∃ p, p ∈ l ∧ radical_file fs p radical.

Definition characters_from (fs : gmap path string) (old : dict string Character.t)
    (l : list path) (w : State) : Prop :=
  files w = fs ∧
  ∀ key character, dict_get (characters w) key = Some character →
    dict_get old key = Some character ∨ ∃ p, p ∈ l ∧ character_file fs p character.

(** How many of the stored characters have the value [k] of the field [f]. *)
Definition tally (f : Character.t → Z) (k : Z) (w : State) : nat :=
  length (filter (λ char, f char = k) (dict_values (characters w))).


(** [c in s] for a character. *)
Fixpoint occurs (c : Ascii.ascii) (s : string) : bool :=
  match s with
  | EmptyString => false
  | String a s' => Ascii.eqb a c || occurs c s'
  end.

(** A text with no tab and no line break. *)
Definition clean (s : string) : Prop := occurs tab_char s = false ∧ occurs nl_char s = false.

(** A character, and a radical, whose texts are clean. *)
Definition clean_character (char : Character.t) : Prop :=
  clean (Character.character char) ∧ clean (Character.pinyin char) ∧
  clean (Character.mnemonic char) ∧ Forall clean (Character.meaning char) ∧
  Forall clean (Character.radicals char).

Definition clean_radical (radical : Radical.t) : Prop :=
  clean (Radical.character radical) ∧ clean (Radical.pinyin radical) ∧
  clean (Radical.meaning radical) ∧ clean (Radical.mnemonic radical).

(** The columns of the deck. *)
Definition header_fields : list string :=
  ["character"; "pinyin"; "meaning"; "mnemonic"; "radicals"; "strokes"].

Definition character_fields (char : Character.t) : list string :=
  [Character.character char; Character.pinyin char; Str.join ", " (Character.meaning char);
   Character.mnemonic char; Str.join ", " (Character.radicals char);
   Str.of_int (Character.strokes char)].

Definition radical_fields (radical : Radical.t) : list string :=
  [Radical.character radical; Radical.pinyin radical; Radical.meaning radical;
   Radical.mnemonic radical; ""; Str.of_int (Radical.strokes radical)].

(** The records of the deck, as lists of columns. *)
Definition deck_records (include_radicals : bool) (w : State) : list (list string) :=
  header_fields :: (character_fields <$> dict_values (characters w)) ++
  (if include_radicals then radical_fields <$> dict_values (radicals w) else []).

(** The text of some records, a line each. *)
Fixpoint records_text (records : list (list string)) : string :=
  match records with
  | [] => EmptyString
  | fields :: records' => Str.join tab fields +:+ Str.nl +:+ records_text records'
  end.

End further_notions.

(** * Properties *)

(** ** Strings *)

Lemma startswith_nil s : Str.startswith EmptyString s = true.
Proof. by destruct s. Qed.

Lemma startswith_refl s : Str.startswith s s = true.
Proof.
  induction s as [|a s IH]; [done|].
  unfold Str.startswith in *. simpl. by destruct (Ascii.ascii_dec a a).
Qed.

Lemma contains_nil s : Str.contains EmptyString s = true.
Proof. destruct s; cbn [Str.contains]; by rewrite ?startswith_nil. Qed.

Lemma contains_refl s : Str.contains s s = true.
Proof. destruct s; [done|]. cbn [Str.contains]. by rewrite startswith_refl. Qed.

(** ** Dicts *)

Section dict_facts.
Context {K V : Type} `{EqDecision K}.
Implicit Types (d : dict K V) (k : K) (v : V).

Lemma dict_mem_true k d : dict_mem k d = true ↔ is_Some (dict_get d k).
Proof.
  unfold dict_mem, is_Some. destruct (dict_get d k); naive_solver.
Qed.

Lemma dict_mem_false k d : dict_mem k d = false ↔ dict_get d k = None.
Proof. unfold dict_mem. by destruct (dict_get d k). Qed.

Lemma dict_get_set_eq k v d : dict_get (dict_set k v d) k = Some v.
Proof.
  induction d as [|[k' v'] d IH]; simpl.
  - by rewrite decide_True.
  - destruct (decide (k = k')) as [->|Hne]; simpl.
    + by rewrite decide_True.
    + by rewrite decide_False.
Qed.

Lemma dict_get_set_ne k k' v d :
  k ≠ k' → dict_get (dict_set k v d) k' = dict_get d k'.
Proof.
  intros Hne. induction d as [|[k0 v0] d IH]; simpl.
  - by rewrite decide_False.
  - destruct (decide (k = k0)) as [->|Hk]; simpl.
    + by rewrite !decide_False.
    + by rewrite IH.
Qed.

Lemma dict_get_None k d : dict_get d k = None ↔ k ∉ dict_keys d.
Proof.
  unfold dict_keys. induction d as [|[k' v'] d IH]; simpl.
  - split; [intros _; apply not_elem_of_nil | done].
  - rewrite not_elem_of_cons. destruct (decide (k = k')) as [->|Hne].
    + split; [done | by intros [? _]].
    + rewrite IH. naive_solver.
Qed.

Lemma dict_get_elem_of k v d : dict_get d k = Some v → (k, v) ∈ d.
Proof.
  induction d as [|[k' v'] d IH]; simpl; [done|].
  destruct (decide (k = k')) as [->|Hne].
  - intros [= ->]. apply elem_of_cons; by left.
  - intros Hg. apply elem_of_cons; right; auto.
Qed.

Lemma dict_elem_of_get k v d : dict_wf d → (k, v) ∈ d → dict_get d k = Some v.
Proof.
  unfold dict_wf, dict_keys.
  induction d as [|[k' v'] d IH]; simpl; [by intros _ ?%elem_of_nil|].
  rewrite NoDup_cons. intros [Hk Hnd] [[= -> ->]|Hin]%elem_of_cons.
  - by rewrite decide_True.
  - rewrite decide_False; [auto|].
    intros ->. apply Hk. apply list_elem_of_fmap. by exists (k', v).
Qed.

(** A new key goes last; an existing one is replaced where it stands. *)
Lemma dict_set_fresh k v d : dict_get d k = None → dict_set k v d = d ++ [(k, v)].
Proof.
  induction d as [|[k' v'] d IH]; simpl; [done|].
  destruct (decide (k = k')); [done|]. intros Hg. by rewrite IH.
Qed.

Lemma dict_keys_set_present k v d :
  is_Some (dict_get d k) → dict_keys (dict_set k v d) = dict_keys d.
Proof.
  unfold dict_keys. induction d as [|[k' v'] d IH]; simpl; [by intros [? ?]|].
  destruct (decide (k = k')) as [->|Hne]; simpl; [done|].
  intros Hs. f_equal. by apply IH.
Qed.

Lemma dict_wf_set k v d : dict_wf d → dict_wf (dict_set k v d).
Proof.
  intros Hwf. destruct (dict_get d k) as [v0|] eqn:Hg.
  - unfold dict_wf. by rewrite dict_keys_set_present.
  - rewrite dict_set_fresh by done. unfold dict_wf, dict_keys in *.
    rewrite fmap_app. simpl. apply NoDup_app. split_and!; [done| |apply NoDup_singleton].
    intros x Hx ->%list_elem_of_singleton. by apply dict_get_None in Hg.
Qed.
End dict_facts.

(** ** The monad *)

Lemma bind_ok {A B} (m : M A) (f : A → M B) w w' a :
  m w = (w', Ok a) → (m ≫= f) w = f a w'.
Proof. intros Hm. unfold mbind, M_bind. by rewrite Hm. Qed.

Lemma bind_raise {A B} (m : M A) (f : A → M B) w w' e :
  m w = (w', Raise e) → (m ≫= f) w = (w', Raise e).
Proof. intros Hm. unfold mbind, M_bind. by rewrite Hm. Qed.

Ltac run :=
  unfold mbind, M_bind, mret, M_ret, get_state, modify, print, write_text,
    lift, raise; simpl.

(** ** The store operations, step by step *)

Section store_facts.
Context {rt : Runtime}.

Lemma save_radical_run radical w :
  _save_radical radical w =
    (set_files
       (<[(obsidian_dir w, "radicals", md (Radical.character radical))
            := radical_obsidian_content radical]>
        (<[(vscode_dir w, "radicals", md (Radical.character radical))
             := radical_content radical]>
         (<[(root_dir w, "radicals", md (Radical.character radical))
              := radical_content radical]> (files w)))) w, Ok tt).
Proof. done. Qed.

Lemma save_character_memory character w w' r :
  _save_character character w = (w', r) → same_memory w w'.
Proof.
  unfold _save_character. run.
  destruct (character_content character) as [content|e]; simpl.
  - destruct (character_obsidian_content character); simpl;
      intros [= <- <-]; by repeat split.
  - intros [= <- <-]; by repeat split.
Qed.


Lemma update_radical_index_run character w :
  update_radical_index character w =
    (set_radical_index (index_after character (radical_index w)) w, Ok tt).
Proof.
  unfold update_radical_index, index_after.
  generalize (Character.character character) as key. intros key. revert w.
  induction (Character.radicals character) as [|radical l IH]; intros w; simpl.
  - by destruct w.
  - erewrite bind_ok by reflexivity. rewrite IH. by destruct w.
Qed.

Lemma add_character_present character w :
  dict_mem (Character.character character) (characters w) = true →
  add_character character w =
    (set_stdout (stdout w ++ [CharacterExists (Character.character character)]) w,
     Ok false).
Proof. intros Hin. unfold add_character. run. by rewrite Hin. Qed.

Lemma add_radical_present radical w :
  dict_mem (Radical.character radical) (radicals w) = true →
  add_radical radical w =
    (set_stdout (stdout w ++ [RadicalExists (Radical.character radical)]) w, Ok false).
Proof. intros Hin. unfold add_radical. run. by rewrite Hin. Qed.

Lemma add_character_fresh character w :
  dict_mem (Character.character character) (characters w) = false →
  add_character character w =
    match _save_character character (inserted character w) with
    | (w', Ok _) => (w', Ok true)
    | (w', Raise e) => (w', Raise e)
    end.
Proof.
  intros Hin. unfold add_character. run. rewrite Hin. simpl.
  rewrite update_radical_index_run. simpl. unfold inserted.
  by destruct (_save_character _ _) as [w' [[]|e]].
Qed.

Lemma add_character_true character w w' :
  add_character character w = (w', Ok true) →
  dict_mem (Character.character character) (characters w) = false ∧
  _save_character character (inserted character w) = (w', Ok tt).
Proof.
  destruct (dict_mem (Character.character character) (characters w)) eqn:Hin.
  - by rewrite add_character_present.
  - rewrite add_character_fresh by done.
    destruct (_save_character _ _) as [w1 [[]|e]]; by intros [= <-].
Qed.

Lemma add_radical_fresh radical w :
  dict_mem (Radical.character radical) (radicals w) = false →
  add_radical radical w =
    (fst (_save_radical radical
       (set_radicals (dict_set (Radical.character radical) radical (radicals w)) w)),
     Ok true).
Proof. intros Hin. unfold add_radical. run. by rewrite Hin. Qed.
End store_facts.

(** ** Duplicate keys *)

(** C3.  Adding a character whose key is already in the store returns
    [False] and changes nothing but the console: the characters, the
    radicals, the index and the files are as before; likewise for
    [add_radical].  In particular, after a first successful
    [add_character], a second one with the same key fails and the key
    still maps to the first value. *)
Theorem duplicate_key_is_rejected {rt : Runtime} :
  (∀ character w,
     dict_mem (Character.character character) (characters w) = true →
     ∃ w', add_character character w = (w', Ok false) ∧
           characters w' = characters w ∧ radical_index w' = radical_index w ∧
           radicals w' = radicals w ∧ files w' = files w) ∧
  (∀ radical w,
     dict_mem (Radical.character radical) (radicals w) = true →
     ∃ w', add_radical radical w = (w', Ok false) ∧
           characters w' = characters w ∧ radical_index w' = radical_index w ∧
           radicals w' = radicals w ∧ files w' = files w) ∧
  (∀ first second w w1,
     Character.character second = Character.character first →
     add_character first w = (w1, Ok true) →
     ∃ w2, add_character second w1 = (w2, Ok false) ∧
           dict_get (characters w2) (Character.character first) = Some first ∧
           characters w2 = characters w1 ∧ radical_index w2 = radical_index w1 ∧
           files w2 = files w1).
Proof.
  split_and!.
  - intros character w Hin. eexists. by rewrite add_character_present.
  - intros radical w Hin. eexists. by rewrite add_radical_present.
  - intros first second w w1 Hkey [Hfresh Hsave]%add_character_true.
    apply save_character_memory in Hsave as (_ & _ & _ & _ & Hchars & _ & _).
    assert (dict_get (characters w1) (Character.character first) = Some first) as Hget.
    { rewrite Hchars. simpl. apply dict_get_set_eq. }
    eexists. rewrite add_character_present; [done|].
    rewrite Hkey. apply dict_mem_true. by rewrite Hget.
Qed.

Lemma duplicate_key_is_rejected_witness :
  dict_mem (Character.character Examples.lin') (characters Examples.with_lin) = true ∧
  ∃ w', add_character (rt:=Ref.runtime) Examples.lin' Examples.with_lin = (w', Ok false) ∧
        characters w' = characters Examples.with_lin ∧
        radical_index w' = radical_index Examples.with_lin ∧
        radicals w' = radicals Examples.with_lin ∧
        files w' = files Examples.with_lin.
Proof.
  split; [reflexivity|].
  apply (proj1 (duplicate_key_is_rejected (rt:=Ref.runtime))). reflexivity.
Defined.

(** ** The radical index *)

Section index_facts.
Context {rt : Runtime}.
Implicit Types (index : dict string (gset string)) (w : State).

Lemma index_add_get radical key index :
  dict_get (index_add radical key index) radical
  = Some (default ∅ (dict_get index radical) ∪ {[key]}).
Proof.
  unfold index_add, dict_mem.
  destruct (dict_get index radical) as [chars|] eqn:Hg; simpl.
  - rewrite Hg. apply dict_get_set_eq.
  - rewrite dict_get_set_eq. apply dict_get_set_eq.
Qed.

Lemma index_add_get_ne radical radical' key index :
  radical ≠ radical' →
  dict_get (index_add radical key index) radical' = dict_get index radical'.
Proof.
  intros Hne. unfold index_add, dict_mem.
  destruct (dict_get index radical) as [chars|] eqn:Hg; simpl.
  - rewrite Hg. by apply dict_get_set_ne.
  - rewrite dict_get_set_eq. by rewrite !dict_get_set_ne.
Qed.

Lemma indexed_index_add radical key index : indexed (index_add radical key index) radical key.
Proof. eexists. split; [apply index_add_get | set_solver]. Qed.

Lemma indexed_index_add_mono radical key radical' key' index :
  indexed index radical key → indexed (index_add radical' key' index) radical key.
Proof.
  intros (chars & Hg & Hin). destruct (decide (radical' = radical)) as [->|Hne].
  - eexists. split; [apply index_add_get|]. rewrite Hg. set_solver.
  - exists chars. by rewrite index_add_get_ne.
Qed.

Lemma index_after_mono character index radical key :
  indexed index radical key → indexed (index_after character index) radical key.
Proof.
  unfold index_after. revert index.
  induction (Character.radicals character) as [|r l IH]; intros index Hi; simpl; [done|].
  apply IH. by apply indexed_index_add_mono.
Qed.

Lemma index_after_indexed character index radical :
  radical ∈ Character.radicals character →
  indexed (index_after character index) radical (Character.character character).
Proof.
  unfold index_after. revert index.
  induction (Character.radicals character) as [|r l IH]; intros index Hin; simpl.
  - by apply elem_of_nil in Hin.
  - apply elem_of_cons in Hin as [->|Hin]; [|by apply IH].
    apply (index_after_mono (Character.mk (Character.character character)
             "" 0 [] l 0 [] [] 0 0 "" [] [])).
    apply indexed_index_add.
Qed.

(** A radical that was no key of the index gets a set of its own, which
    holds the new character and nothing else. *)
Lemma index_after_created character index radical :
  dict_get index radical = None →
  radical ∈ Character.radicals character →
  dict_get (index_after character index) radical
  = Some {[Character.character character]}.
Proof.
  unfold index_after. generalize (Character.character character) as key. intros key.
  intros Hnone Hin.
  cut (∀ l index,
         (radical ∈ l ∧ dict_get index radical = None) ∨
         dict_get index radical = Some ({[key]} : gset string) →
         dict_get (foldl (λ index radical, index_add radical key index) index l) radical
         = Some {[key]}); [by eauto|].
  clear. induction l as [|r l IH]; intros index Hc; simpl.
  - destruct Hc as [[Hin _]|Hc]; [by apply elem_of_nil in Hin | done].
  - apply IH. destruct (decide (r = radical)) as [->|Hne].
    + right. rewrite index_add_get.
      destruct Hc as [[_ ->] | ->]; simpl; f_equal; set_solver.
    + rewrite index_add_get_ne by done.
      destruct Hc as [[Hin Hg]|Hc]; [left|by right].
      split; [|done]. apply elem_of_cons in Hin as [->|Hin]; done.
Qed.

(** *** Loading *)

Lemma for_cons {A} (x : A) l (body : A → M unit) w :
  for_ (x :: l) body w =
    match body x w with
    | (w', Ok _) => for_ l body w'
    | (w', Raise e) => (w', Raise e)
    end.
Proof. done. Qed.

Lemma parse_character_file_run p w :
  _parse_character_file p w =
    match read_text p w ≫= parse_character with
    | Ok r => (w, Ok r)
    | Raise (IllTyped f) => (w, Raise (IllTyped f))
    | Raise e => (set_stdout (stdout w ++ [ParseCharacterError p e]) w, Ok None)
    end.
Proof.
  unfold _parse_character_file, try_except. run.
  destruct (read_text p w) as [content|e]; simpl.
  - destruct (parse_character content) as [r|e]; simpl; [done|]. by destruct e.
  - by destruct e.
Qed.

Lemma parse_radical_file_run p w :
  _parse_radical_file p w =
    match read_text p w ≫= parse_radical with
    | Ok r => (w, Ok r)
    | Raise (IllTyped f) => (w, Raise (IllTyped f))
    | Raise e => (set_stdout (stdout w ++ [ParseRadicalError p e]) w, Ok None)
    end.
Proof.
  unfold _parse_radical_file, try_except. run.
  destruct (read_text p w) as [content|e]; simpl.
  - destruct (parse_radical content) as [r|e]; simpl; [done|]. by destruct e.
  - by destruct e.
Qed.

Lemma load_data_unfold w :
  load_data w =
    match for_ (glob_md (root_dir w) "radicals" w) load_radical w with
    | (w', Ok _) => for_ (glob_md (root_dir w) "characters" w) load_character w'
    | (w', Raise e) => (w', Raise e)
    end.
Proof. done. Qed.

Lemma load_radical_keeps p w w' r :
  load_radical p w = (w', r) →
  files w' = files w ∧ radical_index w' = radical_index w.
Proof.
  unfold load_radical. unfold mbind at 1, M_bind at 1. rewrite parse_radical_file_run.
  destruct (read_text p w ≫= parse_radical) as [[radical|]|e]; simpl.
  - by intros [= <- <-].
  - by intros [= <- <-].
  - destruct e; by intros [= <- <-].
Qed.

Lemma load_radicals_keep l w w' r :
  for_ l load_radical w = (w', r) →
  files w' = files w ∧ radical_index w' = radical_index w.
Proof.
  revert w. induction l as [|p l IH]; intros w; [by intros [= <- <-]|].
  rewrite for_cons.
  destruct (load_radical p w) as [w1 [[]|e]] eqn:Hp;
    apply load_radical_keeps in Hp as [Hf Hi].
  - intros [? ?]%IH. split; congruence.
  - by intros [= <- <-].
Qed.

Lemma load_character_keeps p w w' r :
  load_character p w = (w', r) →
  files w' = files w ∧
  (∀ radical key, indexed (radical_index w) radical key →
                  indexed (radical_index w') radical key) ∧
  (∀ content character,
     files w !! p = Some content → parse_character content = Ok (Some character) →
     ∀ radical, radical ∈ Character.radicals character →
                indexed (radical_index w') radical (Character.character character)).
Proof.
  unfold load_character. unfold mbind at 1, M_bind at 1. rewrite parse_character_file_run.
  unfold read_text. destruct (files w !! p) as [content|]; simpl.
  - destruct (parse_character content) as [[character|]|e] eqn:Hp; simpl.
    + erewrite bind_ok by reflexivity. rewrite update_radical_index_run.
      intros [= <- <-]. simpl. split_and!; [done| |].
      * intros radical key. apply index_after_mono.
      * intros ? ? [= <-]. rewrite Hp. intros [= <-] radical.
        apply index_after_indexed.
    + intros [= <- <-]. split_and!; [done..|]. intros ? ? [= <-]. by rewrite Hp.
    + destruct e; intros [= <- <-]; (split_and!; [done..|]);
        intros ? ? [= <-]; by rewrite Hp.
  - by intros [= <- <-].
Qed.

Lemma load_characters_keep l w w' :
  for_ l load_character w = (w', Ok tt) →
  files w' = files w ∧
  (∀ radical key, indexed (radical_index w) radical key →
                  indexed (radical_index w') radical key) ∧
  (∀ p content character,
     p ∈ l → files w !! p = Some content →
     parse_character content = Ok (Some character) →
     ∀ radical, radical ∈ Character.radicals character →
                indexed (radical_index w') radical (Character.character character)).
Proof.
  revert w. induction l as [|p l IH]; intros w.
  - intros [= <-]. split_and!; [done..|]. by intros ? ? ? ?%elem_of_nil.
  - rewrite for_cons.
    destruct (load_character p w) as [w1 [[]|e]] eqn:Hp; [|done].
    apply load_character_keeps in Hp as (Hf & Hmono & Hnew).
    intros (Hf' & Hmono' & Hnew')%IH. split_and!.
    + congruence.
    + eauto.
    + intros q content character [->|Hin]%elem_of_cons Hq Hparse radical Hr.
      * eapply Hmono', Hnew; eauto.
      * eapply Hnew'; eauto. by rewrite Hf.
Qed.
End index_facts.

(** C2.  After a successful [add_character(c)], every radical of
    [c.radicals] is a key of the index and its set contains [c.character];
    a radical that was no key before maps to a set created for it, holding
    that character only.  The same holds after [load_data] for every
    character file it decodes. *)
Theorem index_contains_added_character {rt : Runtime} :
  (∀ character w w' radical,
     add_character character w = (w', Ok true) →
     radical ∈ Character.radicals character →
     indexed (radical_index w') radical (Character.character character) ∧
     (dict_get (radical_index w) radical = None →
      dict_get (radical_index w') radical = Some {[Character.character character]})) ∧
  (∀ w w' file_path content character radical,
     load_data w = (w', Ok tt) →
     file_path ∈ glob_md (root_dir w) "characters" w →
     files w !! file_path = Some content →
     parse_character content = Ok (Some character) →
     radical ∈ Character.radicals character →
     indexed (radical_index w') radical (Character.character character)).
Proof.
  split.
  - intros character w w' radical [_ Hsave]%add_character_true Hin.
    apply save_character_memory in Hsave as (_ & _ & _ & _ & _ & -> & _). simpl.
    split; [by apply index_after_indexed|].
    intros Hnone. by apply index_after_created.
  - intros w w' file_path content character radical Hload Hin Hfile Hparse Hr.
    rewrite load_data_unfold in Hload.
    destruct (for_ _ load_radical w) as [w1 [[]|e]] eqn:Hrad; [|done].
    apply load_radicals_keep in Hrad as [Hf _].
    apply load_characters_keep in Hload as (_ & _ & Hnew).
    eapply Hnew; eauto. by rewrite Hf.
Qed.

(** ** Queries *)

Lemma length_omap_filter {A B} (f : A → option B) (l : list A) :
  length (omap f l) = length (filter (λ x, is_Some (f x)) l).
Proof.
  induction l as [|x l IH]; [done|].
  rewrite filter_cons. cbn [omap list_omap]. fold (omap f l).
  destruct (f x) as [y|] eqn:Hf.
  - rewrite decide_True by eauto. simpl. by rewrite IH.
  - rewrite decide_False by (by intros [? ?]). done.
Qed.

(** C5.  [get_characters_by_radical(r)] is the empty list when [r] is no
    key of the index (no exception is involved); otherwise it holds exactly
    the characters stored under the keys of [index[r]]: an index entry whose
    character is missing from the store contributes nothing. *)
Theorem characters_by_radical_spec (radical : string) (w : State) :
  (dict_get (radical_index w) radical = None →
   get_characters_by_radical radical w = []) ∧
  (∀ chars, dict_get (radical_index w) radical = Some chars →
     (∀ character,
        character ∈ get_characters_by_radical radical w ↔
        ∃ key, key ∈ chars ∧ dict_get (characters w) key = Some character) ∧
     length (get_characters_by_radical radical w)
     = length (filter (λ key, is_Some (dict_get (characters w) key)) (elements chars))).
Proof.
  unfold get_characters_by_radical. split; [by intros ->|].
  intros chars ->. split.
  - intros character. rewrite list_elem_of_omap. by setoid_rewrite elem_of_elements.
  - apply length_omap_filter.
Qed.

Lemma characters_by_radical_spec_witness :
  dict_get (radical_index Examples.with_lin) "不存在" = None ∧
  get_characters_by_radical "不存在" Examples.with_lin = [].
Proof.
  split; [reflexivity|].
  apply (proj1 (characters_by_radical_spec "不存在" Examples.with_lin)). reflexivity.
Defined.

Section search_facts.
Context {rt : Runtime}.

Lemma search_step_matches query results char :
  search_step query results char
  = results ++ (if matches query char then [char] else []).
Proof.
  unfold search_step, matches.
  destruct (Str.contains query _); simpl; [done|].
  destruct (Str.contains (lower query) _); simpl; [done|].
  destruct (existsb _ (Character.meaning char)); simpl; [done|].
  destruct (existsb _ (Character.tags char)); simpl; [done|].
  by rewrite app_nil_r.
Qed.

Lemma search_loop query results chars :
  foldl (search_step query) results chars
  = results ++ List.filter (matches query) chars.
Proof.
  revert results. induction chars as [|char chars IH]; intros results; simpl.
  - by rewrite app_nil_r.
  - rewrite IH, search_step_matches. rewrite <- app_assoc. by destruct (matches query char).
Qed.

Lemma matches_nil char : matches EmptyString char = true.
Proof. unfold matches. by rewrite contains_nil. Qed.

Lemma filter_matches_nil chars : List.filter (matches EmptyString) chars = chars.
Proof.
  induction chars as [|char chars IH]; [done|].
  simpl. rewrite matches_nil. by f_equal.
Qed.

Lemma matches_own_grapheme char : matches (Character.character char) char = true.
Proof. unfold matches. by rewrite contains_refl. Qed.
End search_facts.

(** C4.  The search returns the stored characters that match, in store
    order and once each: the result is the list of stored characters
    filtered by [matches], whose first true criterion decides.  The empty
    query returns every stored character, and the grapheme of a stored
    character finds that character. *)
Theorem search_spec {rt : Runtime} (w : State) :
  search_characters EmptyString w = dict_values (characters w) ∧
  (∀ char, char ∈ dict_values (characters w) →
           char ∈ search_characters (Character.character char) w) ∧
  (∀ query, search_characters query w
            = List.filter (matches query) (dict_values (characters w))) ∧
  (∀ query, NoDup (dict_values (characters w)) → NoDup (search_characters query w)).
Proof.
  assert (∀ query, search_characters query w
                   = List.filter (matches query) (dict_values (characters w))) as Hfilter.
  { intros query. unfold search_characters. by rewrite search_loop. }
  split_and!; [| |done|].
  - rewrite Hfilter. apply filter_matches_nil.
  - intros char Hin. rewrite Hfilter. apply list_elem_of_In, filter_In.
    split; [by apply list_elem_of_In | apply matches_own_grapheme].
  - intros query Hnd. rewrite Hfilter.
    apply NoDup_ListNoDup, List.NoDup_filter. by apply NoDup_ListNoDup.
Qed.

Lemma search_spec_witness :
  NoDup (dict_values (characters Examples.with_lin)) ∧
  NoDup (search_characters (rt:=Ref.runtime) "FOREST" Examples.with_lin).
Proof.
  assert (NoDup (dict_values (characters Examples.with_lin))) as Hnd.
  { apply NoDup_singleton. }
  split; [exact Hnd|].
  apply (proj2 (proj2 (proj2 (search_spec (rt:=Ref.runtime) Examples.with_lin)))).
  exact Hnd.
Defined.

(** ** Statistics *)

Section stats_facts.

Lemma insert_by_count_perm x l : insert_by_count x l ≡ₚ x :: l.
Proof.
  induction l as [|y l IH]; simpl; [done|].
  destruct (x.2 <? y.2); [|done]. rewrite IH. apply Permutation_swap.
Qed.

Lemma sorted_by_count_perm l : sorted_by_count l ≡ₚ l.
Proof.
  induction l as [|x l IH]; simpl; [done|].
  rewrite insert_by_count_perm. by f_equiv.
Qed.

Lemma insert_by_count_sorted x l :
  StronglySorted by_count_desc l → StronglySorted by_count_desc (insert_by_count x l).
Proof.
  induction 1 as [|y l Hs IH Hall]; simpl.
  - repeat constructor.
  - destruct (x.2 <? y.2) eqn:Hlt.
    + apply Nat.ltb_lt in Hlt. constructor; [done|].
      rewrite insert_by_count_perm. constructor; [|done].
      unfold by_count_desc. lia.
    + apply Nat.ltb_ge in Hlt. constructor; [by constructor|].
      constructor; [done|]. eapply Forall_impl; [exact Hall|].
      unfold by_count_desc. intros z Hz. simpl in *. lia.
Qed.

Lemma sorted_by_count_sorted l : StronglySorted by_count_desc (sorted_by_count l).
Proof.
  induction l as [|x l IH]; simpl; [constructor|]. by apply insert_by_count_sorted.
Qed.

Lemma StronglySorted_take {A} (R : relation A) n l :
  StronglySorted R l → StronglySorted R (take n l).
Proof.
  intros Hs. revert n. induction Hs as [|x l Hs IH Hall]; intros [|n]; simpl;
    try constructor; [apply IH | by apply Forall_take].
Qed.

Lemma elem_of_dict_set {K V} `{EqDecision K} (k k' : K) (v v' : V) d :
  (k', v') ∈ dict_set k v d → (k', v') = (k, v) ∨ (k', v') ∈ d.
Proof.
  induction d as [|[k0 v0] d IH]; simpl.
  - intros ->%list_elem_of_singleton. by left.
  - destruct (decide (k = k0)) as [->|Hne].
    + intros [->|Hin]%elem_of_cons; [by left|]. right. by apply elem_of_cons; right.
    + intros [->|Hin]%elem_of_cons.
      * right. apply elem_of_cons; by left.
      * destruct (IH Hin); [by left|]. right. apply elem_of_cons; by right.
Qed.

(** [radical_count], the dict the loop over [radical_index.items()] fills. *)
Lemma radical_count_elem (items : list (string * gset string)) acc radical n :
  (radical, n) ∈ foldl (λ d item, dict_set item.1 (size item.2) d) acc items →
  (radical, n) ∈ acc ∨ ∃ chars, (radical, chars) ∈ items ∧ n = size chars.
Proof.
  revert acc. induction items as [|[r chars] items IH]; intros acc; simpl; [by left|].
  intros [[[= -> ->]|Hin]%elem_of_dict_set | (chars' & Hin & ->)]%IH.
  - right. exists chars. split; [apply elem_of_cons; by left | done].
  - by left.
  - right. exists chars'. split; [apply elem_of_cons; by right | done].
Qed.

Lemma dict_get_snoc_ne {K V} `{EqDecision K} (k k' : K) (v : V) d :
  k ≠ k' → dict_get d k' = None → dict_get (d ++ [(k, v)]) k' = None.
Proof.
  intros Hne. induction d as [|[k0 v0] d IH]; simpl.
  - by rewrite decide_False.
  - destruct (decide (k' = k0)); [done|]. apply IH.
Qed.

(** With distinct keys, [radical_count] lists the index entries in their
    order, each with the size of its set. *)
Lemma radical_count_wf (items : list (string * gset string)) :
  dict_wf items →
  foldl (λ d item, dict_set item.1 (size item.2) d) [] items
  = (λ item, (item.1, size item.2)) <$> items.
Proof.
  unfold dict_wf, dict_keys.
  cut (∀ acc : dict string nat,
         NoDup items.*1 → (∀ k, k ∈ items.*1 → dict_get acc k = None) →
         foldl (λ d item, dict_set item.1 (size item.2) d) acc items
         = acc ++ ((λ item, (item.1, size item.2)) <$> items)).
  { intros Hcut Hnd. by apply (Hcut []). }
  induction items as [|[k chars] items IH]; intros acc Hnd Hfresh.
  - by rewrite app_nil_r.
  - rewrite fmap_cons in Hnd. apply NoDup_cons in Hnd as [Hk Hnd].
    cbn [foldl fst snd]. rewrite dict_set_fresh.
    2:{ apply Hfresh. rewrite fmap_cons. apply elem_of_cons. by left. }
    rewrite IH; [by rewrite fmap_cons, <- app_assoc | done |].
    intros k' Hk'. apply dict_get_snoc_ne.
    + intros ->. done.
    + apply Hfresh. rewrite fmap_cons. apply elem_of_cons. by right.
Qed.
End stats_facts.

(** C6.  [generate_stats] reports the number of stored characters and of
    stored radicals, and at most ten radicals, ordered by count from the
    largest down, the count of a radical being the size of its index entry:
    they are the first ten of the index entries sorted by size. *)
Theorem stats_spec (w : State) :
  total_characters (generate_stats w) = length (dict_values (characters w)) ∧
  total_radicals (generate_stats w) = length (dict_values (radicals w)) ∧
  length (most_common_radicals (generate_stats w)) ≤ 10 ∧
  StronglySorted by_count_desc (most_common_radicals (generate_stats w)) ∧
  (dict_wf (radical_index w) →
   (∀ radical n, (radical, n) ∈ most_common_radicals (generate_stats w) →
      ∃ chars, dict_get (radical_index w) radical = Some chars ∧ n = size chars) ∧
   most_common_radicals (generate_stats w)
   = take 10 (sorted_by_count ((λ item, (item.1, size item.2)) <$> radical_index w))).
Proof.
  unfold generate_stats, dict_values, dict_len, dict_items. simpl. split_and!.
  - by rewrite length_fmap.
  - by rewrite length_fmap.
  - rewrite length_take. lia.
  - apply StronglySorted_take, sorted_by_count_sorted.
  - intros Hwf. split; [|by rewrite radical_count_wf].
    intros radical n Hin.
    apply (subseteq_take 10) in Hin. rewrite sorted_by_count_perm in Hin.
    apply radical_count_elem in Hin as [Hin|(chars & Hin & ->)].
    + by apply elem_of_nil in Hin.
    + exists chars. split; [|done]. by apply dict_elem_of_get.
Qed.

Lemma stats_spec_witness :
  dict_wf (radical_index Examples.with_lin) ∧
  (∀ radical n,
     (radical, n) ∈ most_common_radicals (generate_stats Examples.with_lin) →
     ∃ chars, dict_get (radical_index Examples.with_lin) radical = Some chars ∧
              n = size chars) ∧
  most_common_radicals (generate_stats Examples.with_lin)
  = take 10 (sorted_by_count
               ((λ item, (item.1, size item.2)) <$> radical_index Examples.with_lin)).
Proof.
  assert (dict_wf (radical_index Examples.with_lin)) as Hwf.
  { apply NoDup_singleton. }
  split; [exact Hwf|].
  apply (proj2 (proj2 (proj2 (proj2 (stats_spec Examples.with_lin))))).
  exact Hwf.
Defined.

Lemma index_contains_added_character_witness :
  add_character (rt:=Ref.runtime) Examples.lin Examples.with_mu
  = (Examples.with_lin, Ok true) ∧
  "木" ∈ Character.radicals Examples.lin ∧
  indexed (radical_index Examples.with_lin) "木" "林" ∧
  (dict_get (radical_index Examples.with_mu) "木" = None →
   dict_get (radical_index Examples.with_lin) "木" = Some {["林"]}).
Proof.
  assert (add_character (rt:=Ref.runtime) Examples.lin Examples.with_mu
          = (Examples.with_lin, Ok true)) as Hadd by (vm_compute; reflexivity).
  assert ("木" ∈ Character.radicals Examples.lin) as Hin by apply list_elem_of_here.
  split; [exact Hadd|]. split; [exact Hin|].
  exact (proj1 (index_contains_added_character (rt:=Ref.runtime))
           Examples.lin Examples.with_mu Examples.with_lin "木" Hadd Hin).
Defined.

(** ** Bulk import *)

Ltac unfold_result := unfold mbind, result_bind in *.

Section import_facts.
Context {rt : Runtime}.













Lemma import_row_run r w :
  import_row r w =
    match row_value r with
    | Raise e => (w, Raise e)
    | Ok (inl radical) =>
        match add_radical radical w with
        | (w', Ok _) => (w', Ok tt)
        | (w', Raise e) => (w', Raise e)
        end
    | Ok (inr character) =>
        match add_character character w with
        | (w', Ok _) => (w', Ok tt)
        | (w', Raise e) => (w', Raise e)
        end
    end.
Proof.
  unfold import_row, row_value. destruct (is_radical r).
  - unfold mbind, M_bind, result_bind, lift, mret, M_ret.
    destruct (radical_of_row r) as [radical|e]; [|done].
    by destruct (add_radical radical w) as [w' [b|e]].
  - unfold mbind, M_bind, result_bind, lift, mret, M_ret.
    destruct (character_of_row r) as [character|e]; [|done].
    by destruct (add_character character w) as [w' [b|e]].
Qed.



Lemma import_rows_cons r rows count w :
  import_rows (r :: rows) count w =
    match import_row r w with
    | (w', Ok _) => import_rows rows (S count) w'
    | (w', Raise e) => (w', Raise e)
    end.
Proof. done. Qed.





End import_facts.


(** ** What an import leaves behind *)

Section growth.
Context {rt : Runtime}.

Lemma grows_refl w : grows w w.
Proof. by repeat split. Qed.

Lemma grows_trans w1 w2 w3 : grows w1 w2 → grows w2 w3 → grows w1 w3.
Proof.
  intros (Hr & Hc & Hd & Hf) (Hr' & Hc' & Hd' & Hf').
  split_and!; [congruence|eauto..].
Qed.

Lemma dict_mem_set {V} (k k' : string) (v : V) d :
  dict_mem k (dict_set k' v d) = true ↔ k = k' ∨ dict_mem k d = true.
Proof.
  rewrite !dict_mem_true. destruct (decide (k' = k)) as [->|Hne].
  - rewrite dict_get_set_eq. split; [by left | by eexists].
  - rewrite dict_get_set_ne by done. naive_solver.
Qed.






End growth.




(** ** Numeric cells *)

Section numeric_cells.
Context {rt : Runtime}.








End numeric_cells.


(** ** The record codec *)

Lemma lookup_if_insert_ne (b : bool) (k k' : string) (v : yaml) (m : gmap string yaml) :
  k ≠ k' → (if b then <[k := v]> m else m) !! k' = m !! k'.
Proof. intros Hne. destruct b; [by rewrite lookup_insert_ne|done]. Qed.

Lemma lookup_if_insert_eq (b : bool) (k : string) (v : yaml) (m : gmap string yaml) :
  (if b then <[k := v]> m else m) !! k = if b then Some v else m !! k.
Proof. destruct b; [by rewrite lookup_insert_eq|done]. Qed.

Ltac neq := let H := fresh in intros H; discriminate H.
Ltac lookups :=
  repeat first
    [ rewrite lookup_if_insert_eq | rewrite lookup_if_insert_ne by neq
    | rewrite lookup_insert_eq | rewrite lookup_insert_ne by neq | rewrite lookup_empty ].

Section codec_facts.
Context {rt : Runtime}.

Lemma RadicalType_call_value t : RadicalType.call (RadicalType.value t) = Ok t.
Proof. by destruct t. Qed.

Lemma strokes_roundtrip l :
  for_each StrokeType.call_any (YStr <$> stroke_values l) = Ok l.
Proof.
  unfold stroke_values.
  induction l as [|x l IH]; [done|]. rewrite !fmap_cons. cbn [for_each].
  rewrite IH. by destruct x.
Qed.

Lemma as_strs_ystrs field l : as_strs field (ystrs l) = Ok l.
Proof.
  unfold as_strs, ystrs. cbn [as_seq mbind result_bind].
  induction l as [|x l IH]; [done|]. rewrite fmap_cons. cbn [for_each].
  by rewrite IH.
Qed.

Lemma as_seq_ystrs field l : as_seq field (ystrs l) = Ok (YStr <$> l).
Proof. done. Qed.

Lemma truthy_ystrs l : truthy (ystrs l) = nonempty l.
Proof. by destruct l. Qed.

Lemma as_word_yword field word : as_word field (yword word) = Ok word.
Proof.
  unfold as_word, yword. rewrite map_to_list_fmap.
  assert (∀ l : list (string * string),
    for_each (λ kv : string * yaml, s ← as_str field kv.2; Ok (kv.1, s))
             (prod_map id YStr <$> l) = Ok l) as Hl.
  { induction l as [|[k v] l IH]; [done|]. rewrite fmap_cons. cbn [for_each].
    by rewrite IH. }
  rewrite Hl. cbn. by rewrite list_to_map_to_list.
Qed.

Lemma as_words_roundtrip field words :
  as_words field (YSeq (yword <$> words)) = Ok words.
Proof.
  unfold as_words. cbn [as_seq mbind result_bind].
  induction words as [|w l IH]; [done|]. rewrite fmap_cons. cbn [for_each].
  by rewrite as_word_yword, IH.
Qed.

(** What [.get] finds in the mapping [_save_character] writes. *)
Lemma character_frontmatter_get c :
  let fm := character_frontmatter c in
  fm_get fm "character" (YStr "") = YStr (Character.character c) ∧
  fm_get fm "pinyin" (YStr "") = YStr (Character.pinyin c) ∧
  fm_get fm "tone" (YInt 0) = YInt (Character.tone c) ∧
  fm_get fm "meaning" (YSeq []) = ystrs (Character.meaning c) ∧
  fm_get fm "radicals" (YSeq []) = ystrs (Character.radicals c) ∧
  fm_get fm "strokes" (YInt 0) = YInt (Character.strokes c) ∧
  fm_get fm "hsk_level" (YInt 0) = YInt (Character.hsk_level c) ∧
  fm_get fm "frequency_rank" (YInt 0) = YInt (Character.frequency_rank c) ∧
  fm_get fm "mnemonic" (YStr "") = YStr (Character.mnemonic c) ∧
  fm_get fm "stroke_order" (YSeq []) = ystrs (stroke_values (Character.stroke_order c)) ∧
  fm_get fm "components" (YSeq []) = ystrs (Character.components c) ∧
  fm_get fm "example_words" (YSeq []) = YSeq (yword <$> Character.example_words c) ∧
  fm_get fm "tags" (YSeq []) = ystrs (Character.tags c).
Proof.
  unfold character_frontmatter, fm_get. cbv zeta.
  split_and!; lookups; try done.
  - by destruct (Z.eqb_spec (Character.hsk_level c) 0) as [->|?].
  - by destruct (Z.eqb_spec (Character.frequency_rank c) 0) as [->|?].
  - by destruct (Character.stroke_order c).
  - by destruct (Character.components c).
  - by destruct (Character.example_words c).
  - by destruct (Character.tags c).
Qed.

Lemma radical_frontmatter_get r :
  let fm := radical_frontmatter r in
  fm_get fm "character" (YStr "") = YStr (Radical.character r) ∧
  fm_get fm "pinyin" (YStr "") = YStr (Radical.pinyin r) ∧
  fm_get fm "meaning" (YStr "") = YStr (Radical.meaning r) ∧
  fm_get fm "type" (YStr "unknown") = YStr (RadicalType.value (Radical.type r)) ∧
  fm_get fm "strokes" (YInt 0) = YInt (Radical.strokes r) ∧
  fm_get fm "mnemonic" (YStr "") = YStr (Radical.mnemonic r) ∧
  fm_get fm "stroke_order" (YSeq []) = ystrs (stroke_values (Radical.stroke_order r)) ∧
  fm_get fm "common_characters" (YSeq []) = ystrs (Radical.common_characters r).
Proof.
  unfold radical_frontmatter, fm_get. cbv zeta.
  split_and!; lookups; try done.
  - by destruct (Radical.stroke_order r).
  - by destruct (Radical.common_characters r).
Qed.

(** Decoding the mapping of a value gives the value back. *)
Lemma character_of_frontmatter_roundtrip c :
  character_of_frontmatter (character_frontmatter c) = Ok c.
Proof.
  pose proof (character_frontmatter_get c) as Hfm. cbv zeta in Hfm.
  destruct Hfm as (H1 & H2 & H3 & H4 & H5 & H6 & H7 & H8 & H9 & H10 & H11 & H12 & H13).
  unfold character_of_frontmatter.
  rewrite H1, H2, H3, H4, H5, H6, H7, H8, H9, H10, H11, H12, H13.
  rewrite !as_strs_ystrs, !truthy_ystrs, as_seq_ystrs, as_words_roundtrip.
  cbn [as_str as_int mbind result_bind]. rewrite strokes_roundtrip.
  destruct c as [ch py tn me ra st so co hs fr mn ew tg].
  cbn [Character.stroke_order Character.components Character.example_words
       Character.tags].
  by destruct so, co, ew, tg.
Qed.

Lemma radical_of_frontmatter_roundtrip r :
  radical_of_frontmatter (radical_frontmatter r) = Ok r.
Proof.
  pose proof (radical_frontmatter_get r) as Hfm. cbv zeta in Hfm.
  destruct Hfm as (H1 & H2 & H3 & H4 & H5 & H6 & H7 & H8).
  unfold radical_of_frontmatter.
  rewrite H1, H2, H3, H4, H5, H6, H7, H8.
  rewrite !as_strs_ystrs, !truthy_ystrs, as_seq_ystrs.
  cbn [as_str as_int mbind result_bind RadicalType.call_any].
  rewrite RadicalType_call_value. cbn [mbind result_bind]. rewrite strokes_roundtrip.
  destruct r as [ch py me ty st so cc mn].
  cbn [Radical.stroke_order Radical.common_characters].
  by destruct so, cc.
Qed.
End codec_facts.

(** ** The metadata block *)

#[local] Opaque Ascii.ascii_dec.

Lemma startswith_fence_short a y t :
  Str.startswith fence (String a (y +:+ Str.nl)) = false →
  Str.startswith fence (String a (y +:+ fence +:+ t)) = false.
Proof.
  unfold Str.startswith, fence, Str.nl.
  pose proof startswith_nil as Hnil. unfold Str.startswith in Hnil.
  destruct y as [|b [|c [|d y]]]; simpl;
    repeat (destruct (Ascii.ascii_dec _ _); try done).
  by rewrite !Hnil.
Qed.

#[local] Transparent Ascii.ascii_dec.

Lemma startswith_app p t : Str.startswith p (p +:+ t) = true.
Proof.
  unfold Str.startswith. induction p as [|a p IH]; simpl.
  - by destruct t.
  - by destruct (Ascii.ascii_dec a a).
Qed.

Lemma before_first_unfold needle s :
  Str.before_first needle s =
    if Str.startswith needle s then Some EmptyString
    else match s with
         | EmptyString => None
         | String a s' => String a <$> Str.before_first needle s'
         end.
Proof. by destruct s. Qed.

Lemma before_first_fence y t :
  Str.contains fence (y +:+ Str.nl) = false →
  Str.before_first fence (y +:+ fence +:+ t) = Some y.
Proof.
  induction y as [|a y IH].
  - intros _. change (EmptyString +:+ fence +:+ t) with (fence +:+ t).
    by rewrite before_first_unfold, startswith_app.
  - change (String a y +:+ Str.nl) with (String a (y +:+ Str.nl)).
    change (String a y +:+ fence +:+ t) with (String a (y +:+ fence +:+ t)).
    cbn [Str.contains]. intros [Hhead Htail]%orb_false_elim.
    rewrite before_first_unfold.
    by rewrite (startswith_fence_short _ _ _ Hhead), (IH Htail).
Qed.

Section framing.
Context {rt : Runtime}.

Lemma str_app_assoc (a b c : string) : (a +:+ b) +:+ c = a +:+ b +:+ c.
Proof.
induction a as [|x a IH]; [done|].
change (String x ((a +:+ b) +:+ c) = String x (a +:+ b +:+ c)). by f_equal.
Qed.

Lemma strip_prefix_app p s : Str.strip_prefix p (p +:+ s) = Some s.
Proof.
induction p as [|a p IH]; [by destruct s|].
change (String a p +:+ s) with (String a (p +:+ s)). cbn [Str.strip_prefix].
by rewrite Ascii.eqb_refl.
Qed.

Lemma framed_app dump text more : framed dump text → framed dump (text +:+ more).
Proof.
intros [tail ->]. exists (tail +:+ more).
by rewrite !str_app_assoc.
Qed.

Lemma frontmatter_block_framed fm block text :
yaml_dump fm = block +:+ Str.nl → Str.contains fence (yaml_dump fm) = false →
framed (yaml_dump fm) text → frontmatter_block text = Some block.
Proof.
intros Hdump Hfence [tail ->]. unfold frontmatter_block.
rewrite Hdump in *. rewrite <- (str_app_assoc "---" Str.nl), strip_prefix_app.
cbn [mbind option_bind]. rewrite !str_app_assoc.
rewrite <- (str_app_assoc Str.nl "---" tail). by apply before_first_fence.
Qed.

Lemma parse_radical_framed r text :
yaml_faithful (radical_frontmatter r) →
framed (yaml_dump (radical_frontmatter r)) text →
parse_radical text = Ok (Some r).
Proof.
intros (block & Hdump & Hfence & Hload) Hframed. unfold parse_radical.
rewrite (frontmatter_block_framed _ _ _ Hdump Hfence Hframed).
unfold load_mapping. rewrite Hload. cbn [mbind result_bind].
by rewrite radical_of_frontmatter_roundtrip.
Qed.

Lemma radical_content_framed r :
framed (yaml_dump (radical_frontmatter r)) (radical_content r).
Proof. eexists. unfold radical_content, Str.cat, Str.lines, radical_overview. cbn [String.concat app]. reflexivity. Qed.

Lemma radical_obsidian_content_framed r :
framed (yaml_dump (radical_frontmatter r)) (radical_obsidian_content r).
Proof. eexists. unfold radical_obsidian_content, Str.cat, Str.lines, radical_overview. cbn [String.concat app]. reflexivity. Qed.

Lemma append_example_words_app content words content' :
append_example_words content words = Ok content' → ∃ more, content' = content +:+ more.
Proof.
revert content. induction words as [|w words IH]; intros content; cbn [append_example_words].
- intros [= <-]. exists EmptyString. clear. induction content as [|a c IH]; [done|].
  change (String a c = String a (c +:+ "")). by f_equal.
- unfold mbind, result_bind. destruct (example_word_line w) as [line|e]; [|done].
  intros [more ->]%IH. exists (line +:+ more). by rewrite str_app_assoc.
Qed.

Lemma character_head_framed c radicals components mnemonic :
framed (yaml_dump (character_frontmatter c)) (character_head c radicals components mnemonic).
Proof.
eexists. unfold character_head, Str.cat, Str.lines. cbn [String.concat app]. reflexivity.
Qed.

Lemma character_content_framed c content :
character_content c = Ok content → framed (yaml_dump (character_frontmatter c)) content.
Proof.
unfold character_content, mbind, result_bind.
destruct (append_example_words _ _) as [text|e] eqn:Happ; [|done].
intros [= <-]. apply append_example_words_app in Happ as [more ->].
do 2 apply framed_app. apply character_head_framed.
Qed.

Lemma character_obsidian_content_framed c content :
character_obsidian_content c = Ok content →
framed (yaml_dump (character_frontmatter c)) content.
Proof.
unfold character_obsidian_content, mbind, result_bind.
destruct (append_example_words _ _) as [text|e] eqn:Happ; [|done].
intros [= <-]. apply append_example_words_app in Happ as [more ->].
unfold Str.cat. cbn [String.concat]. rewrite <- !str_app_assoc.
do 5 apply framed_app. apply character_head_framed.
Qed.
End framing.

Section roundtrip.
Context {rt : Runtime}.

Lemma parse_character_framed c text :
  yaml_faithful (character_frontmatter c) →
  framed (yaml_dump (character_frontmatter c)) text →
  parse_character text = Ok (Some c).
Proof.
  intros (block & Hdump & Hfence & Hload) Hframed. unfold parse_character.
  rewrite (frontmatter_block_framed _ _ _ Hdump Hfence Hframed).
  unfold load_mapping. rewrite Hload. cbn [mbind result_bind].
  by rewrite character_of_frontmatter_roundtrip.
Qed.




End roundtrip.


Ltac ref_faithful :=
  match goal with
  | |- yaml_faithful ?fm =>
      exists (Ref.chomp (Ref.yaml_dump fm)); split_and!; vm_compute; reflexivity
  end.



(** ** Enumeration literals *)

Section strict_enums.
Context {rt : Runtime}.


















End strict_enums.




(** * Further properties *)

(** ** Facts about the example values *)

Lemma store_ok_empty : store_ok Ref.empty.
Proof. split_and!; try apply NoDup_nil_2; done. Qed.

Lemma index_exact_empty : index_sound Ref.empty ∧ index_complete Ref.empty.
Proof.
  split.
  - intros radical key (chars & Hg & _). done.
  - intros key character radical Hg. done.
Qed.


Lemma incomplete_sen : ¬ complete_words Cases.sen.
Proof.
  unfold complete_words. intros H. apply Forall_cons_1 in H as [(_ & [x Hx] & _) _].
  discriminate Hx.
Qed.

Lemma clean_lin : clean_character Examples.lin.
Proof.
  unfold clean_character, clean. simpl.
  split_and!; try reflexivity; repeat (apply Forall_cons_2; [by split|]); apply Forall_nil_2.
Qed.

Lemma clean_mu : clean_radical Examples.mu.
Proof. unfold clean_radical, clean. simpl. split_and!; reflexivity. Qed.

(** ** The keyed store *)

Section invariants.
Context {rt : Runtime}.

Lemma dict_get_set {K V} `{EqDecision K} (k k' : K) (v : V) d :
  dict_get (dict_set k v d) k' = if decide (k = k') then Some v else dict_get d k'.
Proof.
  destruct (decide (k = k')) as [->|Hne];
    [apply dict_get_set_eq | by apply dict_get_set_ne].
Qed.

Lemma index_add_wf radical key index : dict_wf index → dict_wf (index_add radical key index).
Proof.
  intros Hwf. unfold index_add.
  destruct (dict_mem radical index); destruct (dict_get _ radical);
    auto using dict_wf_set.
Qed.

Lemma index_after_wf character index :
  dict_wf index → dict_wf (index_after character index).
Proof.
  unfold index_after. revert index.
  induction (Character.radicals character) as [|r l IH]; intros index Hwf; [done|].
  apply IH. by apply index_add_wf.
Qed.

(** A loop keeps what each of its turns keeps. *)
Lemma for_invariant {A} (P : State → Prop) (body : A → M unit) l w w' r :
  (∀ x w w' r, body x w = (w', r) → P w → P w') →
  for_ l body w = (w', r) → P w → P w'.
Proof.
  intros Hbody. revert w. induction l as [|x l IH]; intros w.
  - by intros [= <- <-].
  - rewrite for_cons. destruct (body x w) as [w1 [[]|e]] eqn:Hx.
    + intros Hl Hw. eapply IH; eauto.
    + intros [= <- <-] Hw. eauto.
Qed.

Lemma store_ok_print e w : store_ok w → store_ok (set_stdout (stdout w ++ [e]) w).
Proof. done. Qed.

Lemma store_ok_files fs w : store_ok w → store_ok (set_files fs w).
Proof. done. Qed.

Lemma store_ok_set_radical radical w :
  store_ok w →
  store_ok (set_radicals (dict_set (Radical.character radical) radical (radicals w)) w).
Proof.
  intros (Hr & Hc & Hi & Hkr & Hkc). split_and!; simpl; [by apply dict_wf_set|done..| |done].
  intros key r. rewrite dict_get_set. case_decide; [by intros [= <-]|]. apply Hkr.
Qed.

Lemma store_ok_set_character character w :
  store_ok w →
  store_ok (set_characters
              (dict_set (Character.character character) character (characters w)) w).
Proof.
  intros (Hr & Hc & Hi & Hkr & Hkc). split_and!; simpl; [done|by apply dict_wf_set|done..|].
  intros key c. rewrite dict_get_set. case_decide; [by intros [= <-]|]. apply Hkc.
Qed.

Lemma store_ok_inserted character w : store_ok w → store_ok (inserted character w).
Proof.
  intros Hw. apply (store_ok_set_character character) in Hw.
  destruct Hw as (Hr & Hc & Hi & Hkr & Hkc). unfold inserted.
  split_and!; simpl in *; try done. by apply index_after_wf.
Qed.

Lemma store_ok_same_memory w w' : same_memory w w' → store_ok w → store_ok w'.
Proof.
  intros (_ & _ & _ & Hr & Hc & Hi & _). unfold store_ok. by rewrite Hr, Hc, Hi.
Qed.

Lemma add_radical_store_ok radical w w' r :
  add_radical radical w = (w', r) → store_ok w → store_ok w'.
Proof.
  destruct (dict_mem (Radical.character radical) (radicals w)) eqn:Hin.
  - rewrite add_radical_present by done. by intros [= <- <-].
  - rewrite add_radical_fresh, save_radical_run by done. intros [= <- <-] Hw.
    by apply (store_ok_set_radical radical) in Hw.
Qed.

Lemma add_character_store_ok character w w' r :
  add_character character w = (w', r) → store_ok w → store_ok w'.
Proof.
  destruct (dict_mem (Character.character character) (characters w)) eqn:Hin.
  - rewrite add_character_present by done. by intros [= <- <-].
  - rewrite add_character_fresh by done.
    destruct (_save_character _ _) as [w1 r1] eqn:Hsave.
    apply save_character_memory in Hsave. intros Heq Hw.
    assert (w' = w1) as -> by (by destruct r1; injection Heq).
    eapply store_ok_same_memory; [done|]. by apply store_ok_inserted.
Qed.

Lemma parse_radical_file_state p w w' r :
  _parse_radical_file p w = (w', r) →
  w' = w ∨ ∃ e, w' = set_stdout (stdout w ++ [e]) w.
Proof.
  rewrite parse_radical_file_run.
  destruct (read_text p w ≫= parse_radical) as [x|e]; [intros [= <- <-]; by left|].
  destruct e; intros [= <- <-]; eauto.
Qed.

Lemma parse_character_file_state p w w' r :
  _parse_character_file p w = (w', r) →
  w' = w ∨ ∃ e, w' = set_stdout (stdout w ++ [e]) w.
Proof.
  rewrite parse_character_file_run.
  destruct (read_text p w ≫= parse_character) as [x|e]; [intros [= <- <-]; by left|].
  destruct e; intros [= <- <-]; eauto.
Qed.

Lemma load_radical_store_ok p w w' r :
  load_radical p w = (w', r) → store_ok w → store_ok w'.
Proof.
  unfold load_radical. unfold mbind at 1, M_bind at 1.
  destruct (_parse_radical_file p w) as [w1 [[radical|]|e]] eqn:Hp;
    apply parse_radical_file_state in Hp as [->|[ev ->]]; intros [= <- <-] Hw;
    try done; by apply (store_ok_set_radical radical) in Hw.
Qed.

Lemma load_character_store_ok p w w' r :
  load_character p w = (w', r) → store_ok w → store_ok w'.
Proof.
  unfold load_character. unfold mbind at 1, M_bind at 1.
  destruct (_parse_character_file p w) as [w1 [[character|]|e]] eqn:Hp;
    apply parse_character_file_state in Hp as [->|[ev ->]];
    try (intros [= <- <-] Hw; done).
  - erewrite bind_ok by reflexivity. rewrite update_radical_index_run.
    intros [= <- <-] Hw. by apply (store_ok_inserted character) in Hw.
  - erewrite bind_ok by reflexivity. rewrite update_radical_index_run.
    intros [= <- <-] Hw. by apply (store_ok_inserted character) in Hw.
Qed.

Lemma load_data_store_ok w w' r : load_data w = (w', r) → store_ok w → store_ok w'.
Proof.
  rewrite load_data_unfold.
  destruct (for_ _ load_radical w) as [w1 [[]|e]] eqn:Hrad.
  - intros Hl Hw. eapply (for_invariant store_ok); [apply load_character_store_ok|done|].
    eapply (for_invariant store_ok); [apply load_radical_store_ok|done|done].
  - intros [= <- <-] Hw.
    eapply (for_invariant store_ok); [apply load_radical_store_ok|done|done].
Qed.

Lemma import_row_store_ok r w w' res :
  import_row r w = (w', res) → store_ok w → store_ok w'.
Proof.
  rewrite import_row_run. destruct (row_value r) as [[radical|character]|e].
  - destruct (add_radical radical w) as [w1 r1] eqn:Hadd. intros Heq Hw.
    assert (w' = w1) as -> by (by destruct r1; injection Heq).
    by eapply add_radical_store_ok.
  - destruct (add_character character w) as [w1 r1] eqn:Hadd. intros Heq Hw.
    assert (w' = w1) as -> by (by destruct r1; injection Heq).
    by eapply add_character_store_ok.
  - by intros [= <- <-].
Qed.

Lemma import_rows_invariant (P : State → Prop) rows count w w' res :
  (∀ r w w' res, import_row r w = (w', res) → P w → P w') →
  import_rows rows count w = (w', res) → P w → P w'.
Proof.
  intros Hrow. revert count w. induction rows as [|r rows IH]; intros count w.
  - by intros [= <- <-].
  - rewrite import_rows_cons. destruct (import_row r w) as [w1 [[]|e]] eqn:Hr.
    + intros Hl Hw. eapply IH; eauto.
    + intros [= <- <-] Hw. eauto.
Qed.

Lemma import_from_csv_invariant (P : State → Prop) rows w w' res :
  (∀ r w w' res, import_row r w = (w', res) → P w → P w') →
  (∀ e w, P w → P (set_stdout (stdout w ++ [e]) w)) →
  import_from_csv rows w = (w', res) → P w → P w'.
Proof.
  intros Hrow Hprint. unfold import_from_csv, try_except.
  destruct (import_rows rows 0 w) as [w1 [n|e]] eqn:Hrows; intros Heq Hw;
    pose proof (import_rows_invariant P _ _ _ _ _ Hrow Hrows Hw) as Hw1.
  - by injection Heq as <- <-.
  - destruct e; injection Heq as <- <-; auto.
Qed.

End invariants.

(** X1.  The store stays keyed.  Each of the three dicts has one entry
    per key, and every radical and every character is stored under its
    own [character] field ([store_ok]).  [add_radical], [add_character],
    [load_data] and [import_from_csv] keep this, whatever they return, and
    the constructor establishes it from any files.  In such a store a
    search never returns a character twice. *)
Theorem store_stays_keyed {rt : Runtime} :
  (∀ radical w w' r, store_ok w → add_radical radical w = (w', r) → store_ok w') ∧
  (∀ character w w' r, store_ok w → add_character character w = (w', r) → store_ok w') ∧
  (∀ w w' r, store_ok w → load_data w = (w', r) → store_ok w') ∧
  (∀ rows w w' r, store_ok w → import_from_csv rows w = (w', r) → store_ok w') ∧
  (∀ root vscode obsidian fs, store_ok (init root vscode obsidian fs).1) ∧
  (∀ w query, store_ok w → NoDup (search_characters query w)).
Proof.
  split_and!.
  - intros. by eapply add_radical_store_ok.
  - intros. by eapply add_character_store_ok.
  - intros. by eapply load_data_store_ok.
  - intros rows w w' r Hw Hi.
    eapply (import_from_csv_invariant store_ok); eauto using import_row_store_ok.
  - intros root vscode obsidian fs. unfold init.
    destruct (load_data _) as [w' r] eqn:Hl. eapply load_data_store_ok; [done|].
    split_and!; simpl; try apply NoDup_nil_2; done.
  - intros w query (_ & Hwf & _ & _ & Hk).
    assert (NoDup (dict_values (characters w))) as Hnd.
    { unfold dict_values. apply NoDup_fmap_2_strong; [|by apply NoDup_fmap_1 in Hwf].
      intros [k1 c1] [k2 c2] H1 H2 Heq. simpl in Heq. subst c2.
      apply dict_elem_of_get in H1, H2; try done.
      apply Hk in H1, H2. congruence. }
    unfold search_characters. rewrite search_loop. simpl.
    apply NoDup_ListNoDup, List.NoDup_filter. by apply NoDup_ListNoDup.
Qed.

Lemma store_stays_keyed_witness :
  store_ok Ref.empty ∧ store_ok Examples.with_mu ∧ store_ok Examples.with_lin.
Proof.
  pose proof (store_stays_keyed (rt:=Ref.runtime)) as (Hr & Hc & _).
  assert (store_ok Examples.with_mu) as Hmu.
  { exact (Hr Examples.mu Ref.empty _ _ store_ok_empty (surjective_pairing _)). }
  split_and!; [exact store_ok_empty|exact Hmu|].
  exact (Hc Examples.lin Examples.with_mu _ _ Hmu (surjective_pairing _)).
Defined.

(** ** The exact index *)

Section index_invariants.
Context {rt : Runtime}.

Lemma index_add_lookup radical key index radical' :
  dict_get (index_add radical key index) radical'
  = if decide (radical = radical')
    then Some (default ∅ (dict_get index radical) ∪ {[key]})
    else dict_get index radical'.
Proof.
  case_decide as Heq; [subst; apply index_add_get | by apply index_add_get_ne].
Qed.

(** The index after the loop: the sets of the character's radicals gain its
    key, and nothing else changes. *)
Lemma index_after_lookup character index radical :
  dict_get (index_after character index) radical
  = if decide (radical ∈ Character.radicals character)
    then Some (default ∅ (dict_get index radical) ∪ {[Character.character character]})
    else dict_get index radical.
Proof.
  unfold index_after. generalize (Character.character character) as key. intros key.
  revert index. induction (Character.radicals character) as [|r l IH]; intros index.
  - cbn [foldl]. case_decide as Hin; [by apply elem_of_nil in Hin|done].
  - cbn [foldl]. rewrite IH, index_add_lookup.
    repeat case_decide; subst; simpl; try done; try (f_equal; set_solver); set_solver.
Qed.

Lemma indexed_index_after character index radical key :
  indexed (index_after character index) radical key ↔
  indexed index radical key ∨
  (radical ∈ Character.radicals character ∧ key = Character.character character).
Proof.
  unfold indexed. rewrite index_after_lookup. case_decide as Hin.
  - split.
    + intros (chars & [= <-] & Hk). apply elem_of_union in Hk as [Hk|Hk%elem_of_singleton].
      * left. destruct (dict_get index radical) as [s|]; [by exists s|]. set_solver.
      * by right.
    + intros [(chars & Hg & Hk)|[_ ->]]; eexists; (split; [done|]).
      * rewrite Hg. set_solver.
      * set_solver.
  - naive_solver.
Qed.

Lemma index_sound_inserted character w :
  dict_mem (Character.character character) (characters w) = false →
  index_sound w → index_sound (inserted character w).
Proof.
  intros Hfresh%dict_mem_false Hs radical key. unfold inserted. simpl.
  rewrite indexed_index_after, dict_get_set. intros [Hold|[Hin ->]].
  - destruct (Hs _ _ Hold) as (c & Hc & Hr). case_decide as Heq; [congruence|eauto].
  - rewrite decide_True by done. eauto.
Qed.

Lemma index_complete_inserted character w :
  index_complete w → index_complete (inserted character w).
Proof.
  intros Hc key c radical. unfold inserted. simpl.
  rewrite dict_get_set, indexed_index_after. case_decide as Heq.
  - intros [= <-] Hin. by right.
  - intros Hg Hin. left. eauto.
Qed.

Lemma index_sound_same_memory w w' : same_memory w w' → index_sound w → index_sound w'.
Proof. intros (_ & _ & _ & _ & Hc & Hi & _). unfold index_sound. by rewrite Hc, Hi. Qed.

Lemma index_complete_same_memory w w' :
  same_memory w w' → index_complete w → index_complete w'.
Proof. intros (_ & _ & _ & _ & Hc & Hi & _). unfold index_complete. by rewrite Hc, Hi. Qed.

Lemma add_character_state character w w' r :
  add_character character w = (w', r) →
  (dict_mem (Character.character character) (characters w) = true ∧
   w' = set_stdout (stdout w ++ [CharacterExists (Character.character character)]) w) ∨
  (dict_mem (Character.character character) (characters w) = false ∧
   same_memory (inserted character w) w').
Proof.
  destruct (dict_mem (Character.character character) (characters w)) eqn:Hin.
  - rewrite add_character_present by done. intros [= <- <-]. by left.
  - rewrite add_character_fresh by done.
    destruct (_save_character _ _) as [w1 r1] eqn:Hsave.
    apply save_character_memory in Hsave. intros Heq.
    assert (w' = w1) as -> by (by destruct r1; injection Heq). by right.
Qed.

Lemma add_radical_state radical w w' r :
  add_radical radical w = (w', r) →
  characters w' = characters w ∧ radical_index w' = radical_index w.
Proof.
  destruct (dict_mem (Radical.character radical) (radicals w)) eqn:Hin.
  - rewrite add_radical_present by done. by intros [= <- <-].
  - rewrite add_radical_fresh, save_radical_run by done. by intros [= <- <-].
Qed.

Lemma add_character_index_exact character w w' r :
  add_character character w = (w', r) → index_exact w → index_exact w'.
Proof.
  intros [[_ ->]|[Hfresh Hmem]]%add_character_state [Hs Hc]; [done|]. split.
  - eapply index_sound_same_memory; [done|]. by apply index_sound_inserted.
  - eapply index_complete_same_memory; [done|]. by apply index_complete_inserted.
Qed.

Lemma add_radical_index_exact radical w w' r :
  add_radical radical w = (w', r) → index_exact w → index_exact w'.
Proof.
  intros [Hc Hi]%add_radical_state. unfold index_exact, index_sound, index_complete.
  by rewrite Hc, Hi.
Qed.

Lemma import_row_index_exact r w w' res :
  import_row r w = (w', res) → index_exact w → index_exact w'.
Proof.
  rewrite import_row_run. destruct (row_value r) as [[radical|character]|e].
  - destruct (add_radical radical w) as [w1 r1] eqn:Hadd. intros Heq Hw.
    assert (w' = w1) as -> by (by destruct r1; injection Heq).
    by eapply add_radical_index_exact.
  - destruct (add_character character w) as [w1 r1] eqn:Hadd. intros Heq Hw.
    assert (w' = w1) as -> by (by destruct r1; injection Heq).
    by eapply add_character_index_exact.
  - by intros [= <- <-].
Qed.

Lemma load_character_index_complete p w w' r :
  load_character p w = (w', r) → index_complete w → index_complete w'.
Proof.
  unfold load_character. unfold mbind at 1, M_bind at 1.
  destruct (_parse_character_file p w) as [w1 [[character|]|e]] eqn:Hp;
    apply parse_character_file_state in Hp as [->|[ev ->]];
    try (intros [= <- <-] Hw; done).
  - erewrite bind_ok by reflexivity. rewrite update_radical_index_run.
    intros [= <- <-] Hw. by apply (index_complete_inserted character) in Hw.
  - erewrite bind_ok by reflexivity. rewrite update_radical_index_run.
    intros [= <- <-] Hw. by apply (index_complete_inserted character) in Hw.
Qed.

Lemma load_radical_index_complete p w w' r :
  load_radical p w = (w', r) → index_complete w → index_complete w'.
Proof.
  unfold load_radical. unfold mbind at 1, M_bind at 1.
  destruct (_parse_radical_file p w) as [w1 [[radical|]|e]] eqn:Hp;
    apply parse_radical_file_state in Hp as [->|[ev ->]]; by intros [= <- <-] Hw.
Qed.

Lemma load_data_index_complete w w' r :
  load_data w = (w', r) → index_complete w → index_complete w'.
Proof.
  rewrite load_data_unfold.
  destruct (for_ _ load_radical w) as [w1 [[]|e]] eqn:Hrad.
  - intros Hl Hw.
    eapply (for_invariant index_complete); [apply load_character_index_complete|done|].
    eapply (for_invariant index_complete); [apply load_radical_index_complete|done|done].
  - intros [= <- <-] Hw.
    eapply (for_invariant index_complete); [apply load_radical_index_complete|done|done].
Qed.

End index_invariants.

(** X2.  The radical index stays exact under additions.  The index is
    sound when every key it lists under a radical is the key of a stored
    character that has this radical, and complete when every stored
    character is listed under each of its radicals.  [add_character],
    [add_radical] and [import_from_csv] keep both, whatever they return. *)
Theorem index_stays_exact {rt : Runtime} :
  (∀ character w w' r,
     index_sound w ∧ index_complete w → add_character character w = (w', r) →
     index_sound w' ∧ index_complete w') ∧
  (∀ radical w w' r,
     index_sound w ∧ index_complete w → add_radical radical w = (w', r) →
     index_sound w' ∧ index_complete w') ∧
  (∀ rows w w' r,
     index_sound w ∧ index_complete w → import_from_csv rows w = (w', r) →
     index_sound w' ∧ index_complete w').
Proof.
  split_and!.
  - intros character w w' r Hw Hadd. by eapply (add_character_index_exact character w).
  - intros radical w w' r Hw Hadd. by eapply (add_radical_index_exact radical w).
  - intros rows w w' r Hw Hi.
    eapply (import_from_csv_invariant index_exact); eauto using import_row_index_exact.
Qed.

Lemma index_stays_exact_witness :
  (index_sound Ref.empty ∧ index_complete Ref.empty) ∧
  (index_sound Examples.with_lin ∧ index_complete Examples.with_lin).
Proof.
  pose proof (index_stays_exact (rt:=Ref.runtime)) as (Hc & Hr & _).
  split; [exact index_exact_empty|].
  refine (Hc Examples.lin Examples.with_mu _ _ _ (surjective_pairing _)).
  exact (Hr Examples.mu Ref.empty _ _ index_exact_empty (surjective_pairing _)).
Defined.

(** X3.  Loading keeps the index complete, and the constructor
    establishes it: in a freshly constructed system every stored character
    is listed in the index under each of its radicals. *)
Theorem load_indexes_every_character {rt : Runtime} :
  (∀ w w' r, index_complete w → load_data w = (w', r) → index_complete w') ∧
  (∀ root vscode obsidian fs, index_complete (init root vscode obsidian fs).1).
Proof.
  split.
  - intros. by eapply load_data_index_complete.
  - intros root vscode obsidian fs. unfold init.
    destruct (load_data _) as [w' r] eqn:Hl. eapply load_data_index_complete; [done|].
    intros key c radical. done.
Qed.

Lemma load_indexes_every_character_witness :
  index_complete Examples.with_lin ∧
  index_complete (load_data (rt:=Ref.runtime) Examples.with_lin).1.
Proof.
  assert (index_complete Examples.with_lin) as Hc.
  { refine (proj2 (add_character_index_exact (rt:=Ref.runtime) Examples.lin
                     Examples.with_mu _ _ (surjective_pairing _) _)).
    exact (add_radical_index_exact (rt:=Ref.runtime) Examples.mu Ref.empty _ _
             (surjective_pairing _) index_exact_empty). }
  split; [exact Hc|].
  exact (proj1 (load_indexes_every_character (rt:=Ref.runtime))
           Examples.with_lin _ _ Hc (surjective_pairing _)).
Defined.

(** X4.  In a keyed store with a sound and complete index,
    [get_characters_by_radical(r)] returns exactly the stored characters
    that have the radical [r], each of them once. *)
Theorem characters_by_radical_exact (radical : string) (w : State) :
  store_ok w → index_sound w → index_complete w →
  (∀ character,
     character ∈ get_characters_by_radical radical w ↔
     character ∈ dict_values (characters w) ∧ radical ∈ Character.radicals character) ∧
  NoDup (get_characters_by_radical radical w).
Proof.
  intros (_ & Hwf & _ & _ & Hk) Hs Hc. split.
  - intros c. unfold get_characters_by_radical. split.
    + destruct (dict_get (radical_index w) radical) as [chars|] eqn:Hg;
        [|by intros ?%elem_of_nil].
      intros (key & Hin%elem_of_elements & Hget)%list_elem_of_omap.
      destruct (Hs radical key) as (c' & Hc' & Hr); [by exists chars|].
      assert (c' = c) as -> by congruence. split; [|done].
      apply list_elem_of_fmap. exists (key, c). split; [done|]. by apply dict_get_elem_of.
    + intros [((key & c') & -> & Hin)%list_elem_of_fmap Hr]. simpl in *.
      apply dict_elem_of_get in Hin; [|done].
      destruct (Hc _ _ _ Hin Hr) as (chars & Hg & Hkey). rewrite Hg.
      apply list_elem_of_omap. exists key. rewrite elem_of_elements.
      rewrite (Hk _ _ Hin) in Hkey. done.
  - unfold get_characters_by_radical.
    destruct (dict_get (radical_index w) radical) as [chars|]; [|apply NoDup_nil_2].
    assert (∀ l : list string, NoDup l → NoDup (omap (dict_get (characters w)) l)) as Hl.
    { induction 1 as [|k l Hk' Hnd IH]; [apply NoDup_nil_2|].
      cbn [omap list_omap]. fold (omap (dict_get (characters w)) l).
      destruct (dict_get (characters w) k) as [c|] eqn:Hg; [|done].
      apply NoDup_cons. split; [|done].
      intros (k' & Hin & Hg')%list_elem_of_omap.
      apply Hk in Hg, Hg'. congruence. }
    apply Hl, NoDup_elements.
Qed.

Lemma characters_by_radical_exact_witness :
  store_ok Examples.with_lin ∧ index_sound Examples.with_lin ∧
  index_complete Examples.with_lin ∧
  (Examples.lin ∈ get_characters_by_radical "木" Examples.with_lin ↔
   Examples.lin ∈ dict_values (characters Examples.with_lin) ∧
   "木" ∈ Character.radicals Examples.lin) ∧
  NoDup (get_characters_by_radical "木" Examples.with_lin).
Proof.
  assert (store_ok Examples.with_lin) as Hok.
  { refine (add_character_store_ok (rt:=Ref.runtime) Examples.lin Examples.with_mu _ _
              (surjective_pairing _) _).
    exact (add_radical_store_ok (rt:=Ref.runtime) Examples.mu Ref.empty _ _
             (surjective_pairing _) store_ok_empty). }
  assert (index_exact Examples.with_lin) as [Hs Hc].
  { refine (add_character_index_exact (rt:=Ref.runtime) Examples.lin
              Examples.with_mu _ _ (surjective_pairing _) _).
    exact (add_radical_index_exact (rt:=Ref.runtime) Examples.mu Ref.empty _ _
             (surjective_pairing _) index_exact_empty). }
  split_and!; [exact Hok|exact Hs|exact Hc|..].
  - exact (proj1 (characters_by_radical_exact "木" Examples.with_lin Hok Hs Hc) Examples.lin).
  - exact (proj2 (characters_by_radical_exact "木" Examples.with_lin Hok Hs Hc)).
Defined.

(** ** What an addition does *)

Section save_facts.
Context {rt : Runtime}.

Lemma example_word_line_result word :
  (∃ line, example_word_line word = Ok line) ∨
  (∃ k, k ∈ word_keys ∧ example_word_line word = Raise (KeyError k)).
Proof.
  unfold example_word_line, word_get, word_keys.
  destruct (word !! "word") as [w|] eqn:Hw; [|right; exists "word"; split; [set_solver|done]].
  destruct (word !! "pinyin") as [p|] eqn:Hp;
    [|right; exists "pinyin"; split; [set_solver|done]].
  destruct (word !! "meaning") as [m|] eqn:Hm;
    [|right; exists "meaning"; split; [set_solver|done]].
  left. by eexists.
Qed.

Lemma example_word_line_complete word line :
  example_word_line word = Ok line →
  is_Some (word !! "word") ∧ is_Some (word !! "pinyin") ∧ is_Some (word !! "meaning").
Proof.
  unfold example_word_line, word_get.
  destruct (word !! "word"); [|done]. destruct (word !! "pinyin"); [|done].
  destruct (word !! "meaning"); [|done]. by intros _.
Qed.

(** Rendering the example words fails on the first word that lacks an
    entry, whatever text came before. *)
Lemma append_example_words_result words :
  Forall (λ word : gmap string string,
            is_Some (word !! "word") ∧ is_Some (word !! "pinyin") ∧
            is_Some (word !! "meaning")) words ∨
  ∃ k, k ∈ word_keys ∧
       ∀ content, append_example_words content words = Raise (KeyError k).
Proof.
  induction words as [|word words IH]; [by left|].
  destruct (example_word_line_result word) as [[line Hl]|(k & Hk & Hl)].
  - destruct IH as [IH|(k & Hk & IH)].
    + left. constructor; [by eapply example_word_line_complete|done].
    + right. exists k. split; [done|]. intros content.
      cbn [append_example_words]. rewrite Hl. cbn [mbind result_bind]. apply IH.
  - right. exists k. split; [done|]. intros content.
    cbn [append_example_words]. by rewrite Hl.
Qed.


Lemma save_character_run character w content obsidian_content :
  character_content character = Ok content →
  character_obsidian_content character = Ok obsidian_content →
  _save_character character w
  = (set_files (character_files character content obsidian_content w) w, Ok tt).
Proof.
  intros Hc Ho. unfold _save_character. run. rewrite Hc. simpl. rewrite Ho. done.
Qed.

Lemma save_character_incomplete character w :
  ¬ complete_words character →
  ∃ k, k ∈ word_keys ∧ _save_character character w = (w, Raise (KeyError k)).
Proof.
  intros Hc. destruct (append_example_words_result (Character.example_words character))
    as [?|(k & Hk & Hr)]; [done|].
  exists k. split; [done|]. unfold _save_character, character_content. run.
  by rewrite Hr.
Qed.


End save_facts.





(** X7.  A character with an example word that lacks ["word"],
    ["pinyin"] or ["meaning"] is stored but not saved.  On a fresh key
    [add_character] raises [KeyError] for the missing entry after it has
    put the character into [characters] and the index and before it writes
    any file.  A second call with the same character then reports the key
    as existing and returns [False]. *)
Theorem incomplete_word_fails_after_insert {rt : Runtime}
    (character : Character.t) (w : State) :
  dict_mem (Character.character character) (characters w) = false →
  ¬ complete_words character →
  ∃ k, k ∈ word_keys ∧
    add_character character w = (inserted character w, Raise (KeyError k)) ∧
    files (inserted character w) = files w ∧
    dict_get (characters (inserted character w)) (Character.character character)
    = Some character ∧
    add_character character (inserted character w)
    = (set_stdout (stdout w ++ [CharacterExists (Character.character character)])
         (inserted character w), Ok false).
Proof.
  intros Hfresh Hc.
  destruct (save_character_incomplete character (inserted character w) Hc)
    as (k & Hk & Hsave).
  exists k. split_and!; [done| | | |].
  - rewrite add_character_fresh by done. by rewrite Hsave.
  - done.
  - simpl. apply dict_get_set_eq.
  - rewrite add_character_present; [done|]. apply dict_mem_true. simpl.
    rewrite dict_get_set_eq. by eexists.
Qed.

Lemma incomplete_word_fails_after_insert_witness :
  dict_mem (Character.character Cases.sen) (characters Examples.with_lin) = false ∧
  ¬ complete_words Cases.sen ∧
  ∃ k, k ∈ word_keys ∧
    add_character (rt:=Ref.runtime) Cases.sen Examples.with_lin
    = (inserted Cases.sen Examples.with_lin, Raise (KeyError k)) ∧
    files (inserted Cases.sen Examples.with_lin) = files Examples.with_lin.
Proof.
  split; [reflexivity|]. split; [exact incomplete_sen|].
  destruct (incomplete_word_fails_after_insert (rt:=Ref.runtime) Cases.sen
              Examples.with_lin eq_refl incomplete_sen) as (k & Hk & Hadd & Hf & _).
  exists k. split_and!; assumption.
Defined.

(** X8.  Every copy decodes.  When the YAML library round-trips the
    metadata of a value, each of the three files that [_save_radical] and
    [_save_character] write for it (under the plain root, the VS Code root
    and the Obsidian vault) decodes to the value that was saved. *)
Theorem every_variant_decodes {rt : Runtime} :
  (∀ radical w,
     yaml_faithful (radical_frontmatter radical) →
     parse_radical (radical_obsidian_content radical) = Ok (Some radical) ∧
     ∀ dir, dir ∈ [root_dir w; vscode_dir w; obsidian_dir w] →
       ∃ content,
         files (_save_radical radical w).1 !! (dir, "radicals", md (Radical.character radical))
         = Some content ∧
         parse_radical content = Ok (Some radical)) ∧
  (∀ character w w',
     yaml_faithful (character_frontmatter character) →
     _save_character character w = (w', Ok tt) →
     ∀ dir, dir ∈ [root_dir w; vscode_dir w; obsidian_dir w] →
       ∃ content,
         files w' !! (dir, "characters", md (Character.character character)) = Some content ∧
         parse_character content = Ok (Some character)).
Proof.
  split.
  - intros radical w Hy.
    assert (parse_radical (radical_content radical) = Ok (Some radical)) as Hplain.
    { apply parse_radical_framed; [done|apply radical_content_framed]. }
    assert (parse_radical (radical_obsidian_content radical) = Ok (Some radical)) as Hobs.
    { apply parse_radical_framed; [done|apply radical_obsidian_content_framed]. }
    split; [done|]. intros dir Hdir. rewrite save_radical_run. simpl.
    destruct (decide (dir = obsidian_dir w)) as [->|Ho].
    { eexists. by rewrite lookup_insert_eq. }
    rewrite lookup_insert_ne by congruence.
    destruct (decide (dir = vscode_dir w)) as [->|Hv].
    { eexists. by rewrite lookup_insert_eq. }
    rewrite lookup_insert_ne by congruence.
    assert (dir = root_dir w) as -> by set_solver.
    eexists. by rewrite lookup_insert_eq.
  - intros character w w' Hy Hsave dir Hdir.
    destruct (character_content character) as [content|e] eqn:Hcc; cycle 1.
    { unfold _save_character in Hsave. revert Hsave. run. by rewrite Hcc. }
    destruct (character_obsidian_content character) as [oc|e] eqn:Hoc; cycle 1.
    { unfold _save_character in Hsave. revert Hsave. run. rewrite Hcc. simpl. by rewrite Hoc. }
    rewrite (save_character_run _ _ _ _ Hcc Hoc) in Hsave. injection Hsave as <-.
    simpl. unfold character_files.
    pose proof (character_content_framed _ _ Hcc) as Hf.
    destruct (decide (dir = obsidian_dir w)) as [->|Ho].
    { eexists. rewrite lookup_insert_eq. split; [done|].
      apply parse_character_framed; [done|]. by apply character_obsidian_content_framed. }
    rewrite lookup_insert_ne by congruence.
    destruct (decide (dir = vscode_dir w)) as [->|Hv].
    { eexists. rewrite lookup_insert_eq. split; [done|].
      apply parse_character_framed; [done|]. by apply framed_app. }
    rewrite lookup_insert_ne by congruence.
    assert (dir = root_dir w) as -> by set_solver.
    eexists. rewrite lookup_insert_eq. split; [done|].
    by apply parse_character_framed.
Qed.

Lemma every_variant_decodes_witness :
  yaml_faithful (rt:=Ref.runtime) (character_frontmatter Examples.lin) ∧
  _save_character (rt:=Ref.runtime) Examples.lin Ref.empty
  = ((_save_character (rt:=Ref.runtime) Examples.lin Ref.empty).1, Ok tt) ∧
  "vault" ∈ [root_dir Ref.empty; vscode_dir Ref.empty; obsidian_dir Ref.empty] ∧
  ∃ content,
    files (_save_character (rt:=Ref.runtime) Examples.lin Ref.empty).1
      !! ("vault", "characters", md (Character.character Examples.lin)) = Some content ∧
    parse_character (rt:=Ref.runtime) content = Ok (Some Examples.lin).
Proof.
  assert (yaml_faithful (rt:=Ref.runtime) (character_frontmatter Examples.lin))
    as Hy by ref_faithful.
  assert (_save_character (rt:=Ref.runtime) Examples.lin Ref.empty
          = ((_save_character (rt:=Ref.runtime) Examples.lin Ref.empty).1, Ok tt)) as Hsave.
  { vm_compute. reflexivity. }
  assert ("vault" ∈ [root_dir Ref.empty; vscode_dir Ref.empty; obsidian_dir Ref.empty])
    as Hdir.
  { do 2 apply list_elem_of_further. apply list_elem_of_here. }
  split_and!; [exact Hy|exact Hsave|exact Hdir|].
  exact (proj2 (every_variant_decodes (rt:=Ref.runtime)) Examples.lin Ref.empty _
           Hy Hsave "vault" Hdir).
Defined.

(** ** Files that hold no record *)

Section block_facts.





End block_facts.

Section load_facts.
Context {rt : Runtime}.


(** One turn of the first loop of [load_data], by what the file holds. *)
Lemma load_radical_run p w :
  load_radical p w =
    match read_text p w ≫= parse_radical with
    | Ok (Some radical) =>
        (set_radicals (dict_set (Radical.character radical) radical (radicals w)) w, Ok tt)
    | Ok None => (w, Ok tt)
    | Raise (IllTyped f) => (w, Raise (IllTyped f))
    | Raise e => (set_stdout (stdout w ++ [ParseRadicalError p e]) w, Ok tt)
    end.
Proof.
  unfold load_radical. unfold mbind at 1, M_bind at 1. rewrite parse_radical_file_run.
  destruct (read_text p w ≫= parse_radical) as [[r|]|e]; [done|done|]. by destruct e.
Qed.

Lemma load_character_run p w :
  load_character p w =
    match read_text p w ≫= parse_character with
    | Ok (Some character) => (inserted character w, Ok tt)
    | Ok None => (w, Ok tt)
    | Raise (IllTyped f) => (w, Raise (IllTyped f))
    | Raise e => (set_stdout (stdout w ++ [ParseCharacterError p e]) w, Ok tt)
    end.
Proof.
  unfold load_character. unfold mbind at 1, M_bind at 1. rewrite parse_character_file_run.
  destruct (read_text p w ≫= parse_character) as [[c|]|e]; [|done|by destruct e].
  erewrite bind_ok by reflexivity. by rewrite update_radical_index_run.
Qed.




(** A loop keeps what each turn keeps for the items of the list. *)
Lemma for_invariant_in {A} (P : State → Prop) (body : A → M unit) l w w' r :
  (∀ x w w' r, x ∈ l → body x w = (w', r) → P w → P w') →
  for_ l body w = (w', r) → P w → P w'.
Proof.
  revert w. induction l as [|x l IH]; intros w Hbody.
  - by intros [= <- <-].
  - rewrite for_cons. destruct (body x w) as [w1 [[]|e]] eqn:Hx.
    + intros Hl Hw. eapply IH; [|done|].
      * intros y ? ? ? Hy. apply Hbody. by apply elem_of_cons; right.
      * eapply Hbody; [|done|done]. by apply elem_of_cons; left.
    + intros [= <- <-] Hw. eapply Hbody; [|done|done]. by apply elem_of_cons; left.
Qed.

(** A loop whose turns raise nothing but the marker raises nothing else. *)
Lemma for_result {A} (body : A → M unit) l w w' r :
  (∀ x w w' r, body x w = (w', r) → r = Ok tt ∨ ∃ f, r = Raise (IllTyped f)) →
  for_ l body w = (w', r) → r = Ok tt ∨ ∃ f, r = Raise (IllTyped f).
Proof.
  intros Hbody. revert w. induction l as [|x l IH]; intros w.
  - intros [= <- <-]. by left.
  - rewrite for_cons. destruct (body x w) as [w1 [[]|e]] eqn:Hx.
    + apply IH.
    + intros [= <- <-]. by eapply Hbody.
Qed.

Lemma load_radical_result p w w' r :
  load_radical p w = (w', r) → r = Ok tt ∨ ∃ f, r = Raise (IllTyped f).
Proof.
  rewrite load_radical_run. destruct (read_text p w ≫= parse_radical) as [[x|]|e];
    [intros [= <- <-]; by left..|].
  destruct e; intros [= <- <-]; eauto.
Qed.

Lemma load_character_result p w w' r :
  load_character p w = (w', r) → r = Ok tt ∨ ∃ f, r = Raise (IllTyped f).
Proof.
  rewrite load_character_run. destruct (read_text p w ≫= parse_character) as [[x|]|e];
    [intros [= <- <-]; by left..|].
  destruct e; intros [= <- <-]; eauto.
Qed.

Lemma read_only_refl w : read_only w w.
Proof.
  split_and!; [done..|apply grows_refl|]. exists []. by rewrite app_nil_r.
Qed.

Lemma read_only_trans w1 w2 w3 : read_only w1 w2 → read_only w2 w3 → read_only w1 w3.
Proof.
  intros (Hf & Hr & Hv & Ho & Hg & [o1 H1]) (Hf' & Hr' & Hv' & Ho' & Hg' & [o2 H2]).
  split_and!; try congruence.
  - by eapply grows_trans.
  - exists (o1 ++ o2). by rewrite H2, H1, app_assoc.
Qed.

Lemma read_only_print e w : read_only w (set_stdout (stdout w ++ [e]) w).
Proof. split_and!; [done..|by unfold grows|by exists [e]]. Qed.

Lemma load_radical_read_only p w w' r : load_radical p w = (w', r) → read_only w w'.
Proof.
  rewrite load_radical_run. destruct (read_text p w ≫= parse_radical) as [[x|]|e].
  - intros [= <- <-]. split_and!; [done..| |exists []; by rewrite app_nil_r].
    split_and!; [done|done| |done]. intros key Hk. simpl. apply dict_mem_set. by right.
  - intros [= <- <-]. apply read_only_refl.
  - destruct e; intros [= <- <-]; apply read_only_refl || apply read_only_print.
Qed.

Lemma load_character_read_only p w w' r : load_character p w = (w', r) → read_only w w'.
Proof.
  rewrite load_character_run. destruct (read_text p w ≫= parse_character) as [[x|]|e].
  - intros [= <- <-]. split_and!; [done..| |exists []; by rewrite app_nil_r].
    split_and!; [done| |done|done]. intros key Hk. simpl. apply dict_mem_set. by right.
  - intros [= <- <-]. apply read_only_refl.
  - destruct e; intros [= <- <-]; apply read_only_refl || apply read_only_print.
Qed.

Lemma for_read_only {A} (body : A → M unit) l w w' r :
  (∀ x w w' r, body x w = (w', r) → read_only w w') →
  for_ l body w = (w', r) → read_only w w'.
Proof.
  intros Hbody. revert w. induction l as [|x l IH]; intros w.
  - intros [= <- <-]. apply read_only_refl.
  - rewrite for_cons. destruct (body x w) as [w1 [[]|e]] eqn:Hx.
    + intros Hl. eapply read_only_trans; eauto.
    + intros [= <- <-]. eauto.
Qed.

Lemma load_data_read_only w w' r :
  load_data w = (w', r) → read_only w w' ∧ (r = Ok tt ∨ ∃ f, r = Raise (IllTyped f)).
Proof.
  rewrite load_data_unfold.
  destruct (for_ _ load_radical w) as [w1 [[]|e]] eqn:Hrad.
  - intros Hl. split.
    + eapply read_only_trans.
      * eapply for_read_only; [apply load_radical_read_only|exact Hrad].
      * eapply for_read_only; [apply load_character_read_only|exact Hl].
    + eapply for_result; [|done]. apply load_character_result.
  - intros [= <- <-]. split.
    + eapply for_read_only; [|done]. apply load_radical_read_only.
    + eapply for_result; [|done]. apply load_radical_result.
Qed.

End load_facts.



(** ** What loading stores *)

Section reload_facts.
Context {rt : Runtime}.

Lemma glob_md_files dir area w w' :
  files w' = files w → glob_md dir area w' = glob_md dir area w.
Proof. unfold glob_md. by intros ->. Qed.

Lemma read_parse_radical_some p w radical :
  read_text p w ≫= parse_radical = Ok (Some radical) ↔ radical_file (files w) p radical.
Proof.
  unfold read_text, radical_file. destruct (files w !! p) as [content|]; simpl.
  - split; [by exists content|]. by intros (? & [= <-] & ?).
  - split; [done|]. by intros (? & ? & ?).
Qed.

Lemma read_parse_character_some p w character :
  read_text p w ≫= parse_character = Ok (Some character) ↔
  character_file (files w) p character.
Proof.
  unfold read_text, character_file. destruct (files w !! p) as [content|]; simpl.
  - split; [by exists content|]. by intros (? & [= <-] & ?).
  - split; [done|]. by intros (? & ? & ?).
Qed.

(** After a loop that ran to its end, what each turn establishes for its
    item holds for every item, when later turns keep it. *)
Lemma for_reaches {A} (Q : A → State → Prop) (body : A → M unit) l w w' :
  (∀ x y w w' r, body x w = (w', r) → Q y w → Q y w') →
  (∀ x w w', body x w = (w', Ok tt) → Q x w') →
  for_ l body w = (w', Ok tt) → ∀ x, x ∈ l → Q x w'.
Proof.
  intros Hkeep Hset. revert w. induction l as [|x l IH]; intros w.
  - intros _ y Hy. by apply elem_of_nil in Hy.
  - rewrite for_cons. destruct (body x w) as [w1 [[]|e]] eqn:Hx; [|done].
    intros Hl y [->|Hy]%elem_of_cons; [|by eapply IH].
    eapply (for_invariant (Q x)); [intros ????; apply Hkeep|exact Hl|]. by eapply Hset.
Qed.

Lemma radical_loaded_read_only p w w' : read_only w w' → radical_loaded p w → radical_loaded p w'.
Proof.
  intros (Hf & _ & _ & _ & (_ & _ & Hg & _) & _) Hl radical. rewrite Hf. intros Hr.
  by apply Hg, Hl.
Qed.

Lemma load_radical_loaded p w w' : load_radical p w = (w', Ok tt) → radical_loaded p w'.
Proof.
  intros Hl radical Hr. pose proof (load_radical_read_only _ _ _ _ Hl) as (Hf & _).
  rewrite Hf in Hr. apply read_parse_radical_some in Hr.
  rewrite load_radical_run, Hr in Hl. injection Hl as <-. simpl.
  apply dict_mem_set. by left.
Qed.

Lemma load_character_index p w w' r radical key :
  load_character p w = (w', r) →
  indexed (radical_index w) radical key → indexed (radical_index w') radical key.
Proof.
  rewrite load_character_run. destruct (read_text p w ≫= parse_character) as [[x|]|e].
  - intros [= <- <-]. simpl. apply index_after_mono.
  - by intros [= <- <-].
  - destruct e; by intros [= <- <-].
Qed.

Lemma load_character_keeps_loaded q p w w' r :
  load_character q w = (w', r) → character_loaded p w → character_loaded p w'.
Proof.
  intros Hq Hl character.
  pose proof (load_character_read_only _ _ _ _ Hq) as (Hf & _ & _ & _ & (_ & Hg & _) & _).
  rewrite Hf. intros [Hm Hi]%Hl. split; [by apply Hg|].
  intros radical Hr. eapply load_character_index; [done|]. by apply Hi.
Qed.

Lemma load_character_loaded p w w' : load_character p w = (w', Ok tt) → character_loaded p w'.
Proof.
  intros Hl character Hr. pose proof (load_character_read_only _ _ _ _ Hl) as (Hf & _).
  rewrite Hf in Hr. apply read_parse_character_some in Hr.
  rewrite load_character_run, Hr in Hl. injection Hl as <-. simpl. split.
  - apply dict_mem_set. by left.
  - intros radical Hin. by apply index_after_indexed.
Qed.

Lemma load_radical_characters p w w' r :
  load_radical p w = (w', r) →
  characters w' = characters w ∧ radical_index w' = radical_index w.
Proof.
  rewrite load_radical_run. destruct (read_text p w ≫= parse_radical) as [[x|]|e].
  - by intros [= <- <-].
  - by intros [= <- <-].
  - destruct e; by intros [= <- <-].
Qed.

Lemma load_character_radicals p w w' r : load_character p w = (w', r) → radicals w' = radicals w.
Proof.
  rewrite load_character_run. destruct (read_text p w ≫= parse_character) as [[x|]|e].
  - by intros [= <- <-].
  - by intros [= <- <-].
  - destruct e; by intros [= <- <-].
Qed.

Lemma load_radical_from fs old l p w w' r :
  p ∈ l → load_radical p w = (w', r) → radicals_from fs old l w → radicals_from fs old l w'.
Proof.
  intros Hp Hl [Hf Hfrom]. rewrite load_radical_run in Hl.
  destruct (read_text p w ≫= parse_radical) as [[x|]|e] eqn:Hr.
  - injection Hl as <- <-. split; [done|]. intros key radical. simpl.
    rewrite dict_get_set. case_decide; [|apply Hfrom].
    intros [= <-]. right. exists p. split; [done|]. rewrite <- Hf.
    by apply read_parse_radical_some.
  - by injection Hl as <- <-.
  - destruct e; by injection Hl as <- <-.
Qed.

Lemma load_character_from fs old l p w w' r :
  p ∈ l → load_character p w = (w', r) →
  characters_from fs old l w → characters_from fs old l w'.
Proof.
  intros Hp Hl [Hf Hfrom]. rewrite load_character_run in Hl.
  destruct (read_text p w ≫= parse_character) as [[x|]|e] eqn:Hr.
  - injection Hl as <- <-. split; [done|]. intros key character. simpl.
    rewrite dict_get_set. case_decide; [|apply Hfrom].
    intros [= <-]. right. exists p. split; [done|]. rewrite <- Hf.
    by apply read_parse_character_some.
  - by injection Hl as <- <-.
  - destruct e; by injection Hl as <- <-.
Qed.

Lemma load_data_from w w' r :
  load_data w = (w', r) →
  radicals_from (files w) (radicals w) (glob_md (root_dir w) "radicals" w) w' ∧
  characters_from (files w) (characters w) (glob_md (root_dir w) "characters" w) w'.
Proof.
  rewrite load_data_unfold.
  destruct (for_ _ load_radical w) as [w1 [[]|e]] eqn:Hrad.
  - intros Hl.
    assert (radicals_from (files w) (radicals w) (glob_md (root_dir w) "radicals" w) w1)
      as Hr1.
    { eapply (for_invariant_in (radicals_from _ _ _)); [|exact Hrad|].
      - intros ????. apply load_radical_from.
      - split; [done|]. intros ???. by left. }
    assert (characters w1 = characters w) as Hc1.
    { eapply (for_invariant (λ w1, characters w1 = characters w)); [|exact Hrad|done].
      intros ???? [Hx _]%load_radical_characters. congruence. }
    split.
    + eapply (for_invariant (radicals_from _ _ _)); [|exact Hl|exact Hr1].
      intros x v v' r' Hx [Hf Hfrom].
      pose proof (load_character_read_only _ _ _ _ Hx) as (Hf' & _).
      apply load_character_radicals in Hx. split; [congruence|]. by rewrite Hx.
    + eapply (for_invariant_in (characters_from _ _ _)); [|exact Hl|].
      * intros ????. apply load_character_from.
      * destruct Hr1 as [Hf _]. split; [done|]. rewrite Hc1. intros ???. by left.
  - intros [= <- <-]. split.
    + eapply (for_invariant_in (radicals_from _ _ _)); [|exact Hrad|].
      * intros ????. apply load_radical_from.
      * split; [done|]. intros ???. by left.
    + split.
      * eapply for_read_only in Hrad as [Hf _]; [done|]. apply load_radical_read_only.
      * assert (characters w1 = characters w) as ->.
        { eapply (for_invariant (λ w1, characters w1 = characters w)); [|exact Hrad|done].
          intros ???? [Hx _]%load_radical_characters. congruence. }
        intros ???. by left.
Qed.

Lemma load_data_loaded w w' :
  load_data w = (w', Ok tt) →
  (∀ p, p ∈ glob_md (root_dir w) "radicals" w → radical_loaded p w') ∧
  (∀ p, p ∈ glob_md (root_dir w) "characters" w → character_loaded p w').
Proof.
  rewrite load_data_unfold.
  destruct (for_ _ load_radical w) as [w1 [[]|e]] eqn:Hrad; [|done].
  intros Hl. split.
  - intros p Hp. eapply radical_loaded_read_only.
    + eapply for_read_only; [apply load_character_read_only|exact Hl].
    + eapply (for_reaches radical_loaded); [| |exact Hrad|exact Hp].
      * intros x y v v' r Hx. apply radical_loaded_read_only.
        by eapply load_radical_read_only.
      * apply load_radical_loaded.
  - intros p Hp. eapply (for_reaches character_loaded); [| |exact Hl|exact Hp].
    + intros x y v v' r. apply load_character_keeps_loaded.
    + apply load_character_loaded.
Qed.

End reload_facts.

Section index_growth.
Context {rt : Runtime}.


End index_growth.



(** X11.  What [load_data] stores is what the files hold.  Every radical
    and every character in the store afterwards was there before, or it is
    the decoding of a [.md] file of the root; and when loading ran to its
    end, the key of every file that decodes is in the store. *)
Theorem load_data_stores_what_files_hold {rt : Runtime} (w w' : State) (r : result unit) :
  load_data w = (w', r) →
  (∀ key radical, dict_get (radicals w') key = Some radical →
     dict_get (radicals w) key = Some radical ∨
     ∃ p, p ∈ glob_md (root_dir w) "radicals" w ∧ radical_file (files w) p radical) ∧
  (∀ key character, dict_get (characters w') key = Some character →
     dict_get (characters w) key = Some character ∨
     ∃ p, p ∈ glob_md (root_dir w) "characters" w ∧ character_file (files w) p character) ∧
  (r = Ok tt →
   (∀ p radical, p ∈ glob_md (root_dir w) "radicals" w → radical_file (files w) p radical →
      dict_mem (Radical.character radical) (radicals w') = true) ∧
   (∀ p character, p ∈ glob_md (root_dir w) "characters" w →
      character_file (files w) p character →
      dict_mem (Character.character character) (characters w') = true)).
Proof.
  intros Hl. pose proof (load_data_from _ _ _ Hl) as [[_ Hr] [_ Hc]].
  split_and!; [done|done|]. intros ->.
  pose proof (load_data_read_only _ _ _ Hl) as [(Hf & _) _].
  apply load_data_loaded in Hl as [Hlr Hlc]. split.
  - intros p radical Hp Hfile. apply (Hlr p Hp). by rewrite Hf.
  - intros p character Hp Hfile. apply (Hlc p Hp). by rewrite Hf.
Qed.

Lemma load_data_stores_what_files_hold_witness :
  dict_get (characters Cases.reopened) "林" = Some Examples.lin ∧
  ∃ p, p ∈ glob_md "notes" "characters" Examples.with_lin ∧
       character_file (rt:=Ref.runtime) (files Examples.with_lin) p Examples.lin.
Proof.
  assert (dict_get (characters Cases.reopened) "林" = Some Examples.lin) as Hg.
  { vm_compute. reflexivity. }
  split; [exact Hg|].
  destruct (proj1 (proj2 (load_data_stores_what_files_hold (rt:=Ref.runtime)
              (mkState "notes" "vscode" "vault" [] [] [] (files Examples.with_lin) [])
              _ _ (surjective_pairing _))) "林" Examples.lin Hg) as [Hold|Hp].
  - discriminate Hold.
  - exact Hp.
Defined.



(** ** Histograms *)

Section histogram_facts.

Lemma count_up_get d k k' :
  dict_get (count_up d k) k'
  = if decide (k = k') then Some (default 0 (dict_get d k) + 1) else dict_get d k'.
Proof.
  unfold count_up, dict_mem. destruct (dict_get d k) as [n|] eqn:Hg.
  - rewrite Hg. rewrite dict_get_set. by case_decide; subst.
  - rewrite dict_get_set_eq. rewrite !dict_get_set. by case_decide.
Qed.

Lemma count_up_wf d k : dict_wf d → dict_wf (count_up d k).
Proof.
  intros Hwf. unfold count_up.
  assert (dict_wf (if dict_mem k d then d else dict_set k 0 d)) as Hwf'.
  { destruct (dict_mem k d); [done|by apply dict_wf_set]. }
  destruct (dict_get _ k); [by apply dict_wf_set|done].
Qed.

Lemma sum_dict_set (k : Z) (v : nat) (d : dict Z nat) :
  sum_list (dict_values (dict_set k v d)) + default 0 (dict_get d k)
  = sum_list (dict_values d) + v.
Proof.
  unfold dict_values. induction d as [|[k' v'] d IH]; simpl; [lia|].
  case_decide; simpl; unfold fmap in *; lia.
Qed.

Lemma count_up_sum d k :
  sum_list (dict_values (count_up d k)) = S (sum_list (dict_values d)).
Proof.
  unfold count_up, dict_mem. destruct (dict_get d k) as [n|] eqn:Hg.
  - rewrite Hg. pose proof (sum_dict_set k (n + 1) d) as H. rewrite Hg in H. simpl in H. lia.
  - rewrite dict_get_set_eq.
    pose proof (sum_dict_set k 0 d) as H0. rewrite Hg in H0.
    pose proof (sum_dict_set k (0 + 1) (dict_set k 0 d)) as H1.
    rewrite dict_get_set_eq in H1. simpl in *. lia.
Qed.

Lemma histogram_get (f : Character.t → Z) chars acc k :
  dict_get (foldl (λ d char, count_up d (f char)) acc chars) k
  = match dict_get acc k, length (filter (λ char, f char = k) chars) with
    | None, 0 => None
    | m, n => Some (default 0 m + n)
    end.
Proof.
  revert acc. induction chars as [|c chars IH]; intros acc.
  - simpl. destruct (dict_get acc k); simpl; [f_equal; lia|done].
  - cbn [foldl]. rewrite IH, count_up_get. rewrite filter_cons.
    destruct (decide (f c = k)) as [Heq|Hne]; simpl.
    + subst k. destruct (dict_get acc (f c)); simpl; f_equal; lia.
    + done.
Qed.

Lemma histogram_wf (f : Character.t → Z) chars acc :
  dict_wf acc → dict_wf (foldl (λ d char, count_up d (f char)) acc chars).
Proof.
  revert acc. induction chars as [|c chars IH]; intros acc Hwf; [done|].
  cbn [foldl]. by apply IH, count_up_wf.
Qed.

Lemma histogram_sum (f : Character.t → Z) chars acc :
  sum_list (dict_values (foldl (λ d char, count_up d (f char)) acc chars))
  = sum_list (dict_values acc) + length chars.
Proof.
  revert acc. induction chars as [|c chars IH]; intros acc; simpl; [lia|].
  rewrite IH, count_up_sum. lia.
Qed.

End histogram_facts.

(** X13.  The two histograms of [generate_stats] count the stored
    characters: the entry of an HSK level (of a stroke count) is the number
    of characters with that level (that count), and a value that no
    character has gets no entry.  The keys of each histogram are distinct
    and its counts add up to [total_characters]. *)
Theorem histograms_count_characters (w : State) :
  (∀ level, dict_get (characters_by_hsk_level (generate_stats w)) level
            = match tally Character.hsk_level level w with 0 => None | n => Some n end) ∧
  (∀ strokes, dict_get (characters_by_stroke_count (generate_stats w)) strokes
              = match tally Character.strokes strokes w with 0 => None | n => Some n end) ∧
  dict_wf (characters_by_hsk_level (generate_stats w)) ∧
  dict_wf (characters_by_stroke_count (generate_stats w)) ∧
  sum_list (dict_values (characters_by_hsk_level (generate_stats w)))
  = total_characters (generate_stats w) ∧
  sum_list (dict_values (characters_by_stroke_count (generate_stats w)))
  = total_characters (generate_stats w).
Proof.
  unfold generate_stats, tally, dict_len. simpl. split_and!.
  - intros level. rewrite histogram_get. simpl. by destruct (length _).
  - intros strokes. rewrite histogram_get. simpl. by destruct (length _).
  - apply histogram_wf, NoDup_nil_2.
  - apply histogram_wf, NoDup_nil_2.
  - rewrite histogram_sum. unfold dict_values. by rewrite length_fmap.
  - rewrite histogram_sum. unfold dict_values. by rewrite length_fmap.
Qed.

(** ** Repeated imports *)

Section reimport_facts.
Context {rt : Runtime}.

Lemma same_store_refl w : same_store w w.
Proof. done. Qed.


Lemma grows_same_store w v v' : grows w v → same_store v v' → grows w v'.
Proof.
  intros (Hr & Hc & Hd & Hf) (Hr' & _ & _ & Hd' & Hc' & _ & Hf').
  unfold grows. rewrite Hr', Hc', Hd', Hf'. done.
Qed.





End reimport_facts.


(** ** The lists of an imported character *)

Section row_facts.
Context {rt : Runtime}.

Lemma split_nonempty c s : Str.split c s ≠ [].
Proof.
  induction s as [|a s IH]; simpl; [done|].
  destruct (Ascii.eqb a c); [done|]. by destruct (Str.split c s).
Qed.

Lemma split_strip_nonempty s : split_strip s ≠ [].
Proof.
  unfold split_strip. pose proof (split_nonempty Str.comma s).
  by destruct (Str.split Str.comma s).
Qed.

Lemma character_of_row_lists r c :
  character_of_row r = Ok c →
  Character.meaning c = split_strip (cell r "meaning") ∧
  Character.radicals c = split_strip (cell r "radicals") ∧
  Character.character c = cell r "character".
Proof.
  unfold character_of_row. unfold_result. intros Hr.
  repeat (case_match; simplify_eq/=); done.
Qed.

End row_facts.

(** X15.  The lists of an imported character are never empty: [meaning]
    and [radicals] come from [split(",")], which gives one empty text for
    an absent or empty cell.  A character row without a radicals column
    therefore gets the one radical [strip ""], and once added the
    character is listed in the index under it. *)
Theorem imported_character_lists_are_never_empty {rt : Runtime} (r : row) (c : Character.t) :
  character_of_row r = Ok c →
  Character.meaning c ≠ [] ∧ Character.radicals c ≠ [] ∧
  (r !! "radicals" = None ∨ r !! "radicals" = Some "" → Character.radicals c = [strip ""]) ∧
  (r !! "meaning" = None ∨ r !! "meaning" = Some "" → Character.meaning c = [strip ""]) ∧
  (∀ w w', r !! "radicals" = None → add_character c w = (w', Ok true) →
     indexed (radical_index w') (strip "") (cell r "character")).
Proof.
  intros (Hm & Hr & Hk)%character_of_row_lists. rewrite Hm, Hr. split_and!.
  - apply split_strip_nonempty.
  - apply split_strip_nonempty.
  - unfold cell. by intros [->| ->].
  - unfold cell. by intros [->| ->].
  - intros w w' Hnone [_ Hsave]%add_character_true.
    apply save_character_memory in Hsave as (_ & _ & _ & _ & _ & -> & _). simpl.
    rewrite <- Hk. apply index_after_indexed. rewrite Hr. unfold cell. rewrite Hnone.
    simpl. unfold split_strip. simpl. set_solver.
Qed.

Lemma imported_character_lists_are_never_empty_witness :
  character_of_row (rt:=Ref.runtime) (delete "radicals" Examples.row_he)
  = Ok Cases.he_bare ∧
  Character.radicals Cases.he_bare = [strip (Runtime:=Ref.runtime) ""] ∧
  Character.meaning Cases.he_bare ≠ [].
Proof.
  assert (character_of_row (rt:=Ref.runtime) (delete "radicals" Examples.row_he)
          = Ok Cases.he_bare) as Hrow by (vm_compute; reflexivity).
  destruct (imported_character_lists_are_never_empty (rt:=Ref.runtime)
              (delete "radicals" Examples.row_he) Cases.he_bare Hrow) as (Hm & _ & Hr & _).
  split; [exact Hrow|]. split; [|exact Hm]. apply Hr. left. vm_compute. reflexivity.
Defined.

(** ** Absent fields *)

Section default_facts.
Context {rt : Runtime}.




















End default_facts.



(** ** The pinyin chart *)

Section chart_facts.
Context {rt : Runtime}.

Lemma fill_row_untouched headers n row d name :
  (∀ j, j < length row → col_name headers (n + j) ≠ name) →
  dict_get (fill_row headers n row d) name = dict_get d name.
Proof.
  revert n d. induction row as [|value row IH]; intros n d Hne; [done|].
  cbn [fill_row]. rewrite IH.
  - apply dict_get_set_ne. specialize (Hne 0). rewrite Nat.add_0_r in Hne.
    apply Hne. simpl. lia.
  - intros j Hj. replace (S n + j) with (n + S j) by lia. apply Hne. simpl. lia.
Qed.

Lemma fill_row_get headers n row d i value :
  row !! i = Some value →
  (∀ j, i < j < length row → col_name headers (n + j) ≠ col_name headers (n + i)) →
  dict_get (fill_row headers n row d) (col_name headers (n + i)) = Some (cell_value value).
Proof.
  revert n d i. induction row as [|v row IH]; intros n d i Hi Hlast; [done|].
  cbn [fill_row]. destruct i as [|i].
  - injection Hi as ->. rewrite Nat.add_0_r in *. rewrite fill_row_untouched.
    + apply dict_get_set_eq.
    + intros j Hj. replace (S n + j) with (n + S j) by lia. apply Hlast. simpl. lia.
  - replace (n + S i) with (S n + i) by lia. apply IH; [done|].
    intros j Hj. replace (S n + j) with (n + S j) by lia.
    replace (S n + i) with (n + S i) by lia. apply Hlast. simpl. lia.
Qed.

Lemma fill_row_keys headers n row d name :
  is_Some (dict_get (fill_row headers n row d) name) ↔
  is_Some (dict_get d name) ∨ ∃ j, j < length row ∧ col_name headers (n + j) = name.
Proof.
  revert n d. induction row as [|v row IH]; intros n d.
  - simpl. split; [by left|]. intros [?|(j & Hj & _)]; [done|lia].
  - cbn [fill_row]. rewrite IH. rewrite <- !dict_mem_true, dict_mem_set. split.
    + intros [[->|Hd]|(j & Hj & Hn)].
      * right. exists 0. rewrite Nat.add_0_r. split; [simpl; lia|done].
      * by left.
      * right. exists (S j). replace (n + S j) with (S n + j) by lia.
        split; [simpl; lia|done].
    + intros [Hd|(j & Hj & Hn)]; [by left; right|]. destruct j as [|j].
      * left; left. by rewrite Nat.add_0_r in Hn.
      * right. exists j. replace (S n + j) with (n + S j) by lia.
        split; [simpl in Hj; lia|done].
Qed.

Lemma fill_row_wf headers n row d : dict_wf d → dict_wf (fill_row headers n row d).
Proof.
  revert n d. induction row as [|v row IH]; intros n d Hwf; [done|].
  cbn [fill_row]. by apply IH, dict_wf_set.
Qed.

Lemma cell_value_nonempty value v : cell_value value = Some v → v ≠ "".
Proof.
  unfold cell_value. destruct (Str.nonempty (strip value)) eqn:Hn; [|done].
  intros [= <-] Heq. rewrite Heq in Hn. done.
Qed.

Lemma fill_row_values headers n row d name v :
  dict_get (fill_row headers n row d) name = Some v →
  dict_get d name = Some v ∨ ∃ value, value ∈ row ∧ v = cell_value value.
Proof.
  revert n d. induction row as [|value row IH]; intros n d; [by left|].
  cbn [fill_row]. intros [Hd|(value' & Hin & ->)]%IH.
  - rewrite dict_get_set in Hd. case_decide; [|by left].
    injection Hd as <-. right. exists value. split; [set_solver|done].
  - right. exists value'. split; [set_solver|done].
Qed.

(** With distinct header names and no cell beyond the header, the keys of
    a row are the names of its columns, in column order. *)
Lemma fill_row_fresh headers n row d :
  NoDup (dict_keys d ++ (col_name headers <$> seq n (length row))) →
  dict_keys (fill_row headers n row d)
  = dict_keys d ++ (col_name headers <$> seq n (length row)).
Proof.
  revert n d. induction row as [|v row IH]; intros n d Hnd.
  - simpl. by rewrite app_nil_r.
  - cbn [fill_row length seq fmap list_fmap] in *.
    assert (dict_get d (col_name headers n) = None) as Hfresh.
    { apply dict_get_None. apply NoDup_app in Hnd as (_ & Hd & _).
      intros Hin. apply (Hd _ Hin). set_solver. }
    rewrite IH; rewrite dict_set_fresh by done; unfold dict_keys in *;
      rewrite fmap_app; simpl; rewrite <- app_assoc; [done|]. exact Hnd.
Qed.

Lemma col_names_take headers n :
  n ≤ length headers → col_name headers <$> seq 0 n = take n headers.
Proof.
  intros Hn. apply list_eq. intros i. rewrite list_lookup_fmap.
  destruct (decide (i < n)) as [Hi|Hi].
  - rewrite lookup_seq_lt by done. simpl. rewrite lookup_take_lt by done.
    unfold col_name. destruct (headers !! i) eqn:Hh; [done|].
    apply lookup_ge_None in Hh. lia.
  - rewrite lookup_seq_ge by lia. simpl. rewrite lookup_take_ge by lia. done.
Qed.

Lemma chart_loop headers rows acc :
  foldl (λ pinyin_data row,
           if nonempty row then pinyin_data ++ [row_data headers row] else pinyin_data)
        acc rows
  = acc ++ (row_data headers <$> filter (λ row, row ≠ []) rows).
Proof.
  revert acc. induction rows as [|row rows IH]; intros acc.
  - simpl. by rewrite app_nil_r.
  - cbn [foldl]. rewrite IH. destruct row as [|v row]; cbn [nonempty].
    + rewrite filter_cons_False by (intros H; by apply H). done.
    + rewrite filter_cons_True by done. rewrite fmap_cons, <- app_assoc. done.
Qed.

End chart_facts.

(** X17.  [load_pinyin_chart] takes the first row as the header and
    returns one dict per later row that is not empty, in their order; on
    a file without rows [next(reader)] raises [StopIteration]. *)
Theorem pinyin_chart_rows {rt : Runtime} :
  load_pinyin_chart [] = None ∧
  ∀ headers rows,
    ∃ data, load_pinyin_chart (headers :: rows) = Some data ∧
      data = row_data headers <$> filter (λ row, row ≠ []) rows ∧
      length data ≤ length rows ∧
      (Forall (λ row, row ≠ []) rows → length data = length rows) ∧
      (∀ n row, filter (λ row, row ≠ []) rows !! n = Some row →
         data !! n = Some (row_data headers row)).
Proof.
  split; [done|]. intros headers rows. eexists. split; [done|].
  rewrite chart_loop. simpl. split_and!.
  - done.
  - rewrite length_fmap. apply length_filter.
  - intros Hall. rewrite length_fmap. f_equal.
    induction Hall as [|row rows Hrow Hall IH]; [done|].
    rewrite filter_cons_True by done. simpl. by f_equal.
  - intros n row Hn. by rewrite list_lookup_fmap, Hn.
Qed.

Lemma pinyin_chart_rows_witness :
  ∃ data, load_pinyin_chart (rt:=Ref.runtime) Cases.chart = Some data ∧ length data = 2.
Proof.
  destruct (proj2 (pinyin_chart_rows (rt:=Ref.runtime)) ["group"; "b"; "p"]
              [ []; ["a"; " ba "]; ["o"; "bo"; "  "; "extra"] ])
    as (data & Hl & Hd & _).
  exists data. split; [exact Hl|]. rewrite Hd. reflexivity.
Defined.

(** X18.  The cells of a chart row.  A cell is stored under the name of
    its column, which is [col_N] beyond the header, as its stripped text,
    or as [None] when it is blank; of two columns with the same name the
    later one wins.  The keys are the names of the columns the row has, so
    a column the row is too short for has no key; with distinct header
    names and no cell beyond the header they are the first header names in
    column order.  [row_data.get] never returns an empty text. *)
Theorem pinyin_chart_cells {rt : Runtime} (headers row : list string) :
  dict_wf (row_data headers row) ∧
  (∀ i value, row !! i = Some value →
     (∀ j, i < j < length row → col_name headers j ≠ col_name headers i) →
     dict_get (row_data headers row) (col_name headers i) = Some (cell_value value)) ∧
  (∀ name, is_Some (dict_get (row_data headers row) name) ↔
           ∃ i, i < length row ∧ col_name headers i = name) ∧
  (∀ name v, row_get (row_data headers row) name = Some v →
     v ≠ "" ∧ ∃ value, value ∈ row ∧ v = strip value) ∧
  (NoDup headers → length row ≤ length headers →
   dict_keys (row_data headers row) = take (length row) headers).
Proof.
  unfold row_data. split_and!.
  - apply fill_row_wf, NoDup_nil_2.
  - intros i value Hi Hlast. by apply (fill_row_get headers 0 row [] i value).
  - intros name. rewrite fill_row_keys. simpl. split.
    + intros [[? ?]|?]; done.
    + by right.
  - intros name v. unfold row_get.
    destruct (dict_get _ name) as [[v'|]|] eqn:Hg; simpl; [|done..].
    intros [= ->]. apply fill_row_values in Hg as [?|(value & Hin & Hv)]; [done|].
    split; [by eapply cell_value_nonempty|]. exists value. split; [done|].
    unfold cell_value in Hv. destruct (Str.nonempty _); by simplify_eq.
  - intros Hnd Hlen. rewrite fill_row_fresh; simpl; rewrite col_names_take by done.
    + done.
    + rewrite <- (take_drop (length row) headers) in Hnd.
      by apply NoDup_app in Hnd as [? _].
Qed.

Lemma pinyin_chart_cells_witness :
  dict_get (row_data (rt:=Ref.runtime) ["group"; "b"; "p"] ["o"; "bo"; "  "; "extra"]) "p"
  = Some None ∧
  dict_get (row_data (rt:=Ref.runtime) ["group"; "b"; "p"] ["o"; "bo"; "  "; "extra"])
           "col_3"
  = Some (Some "extra") ∧
  dict_keys (row_data (rt:=Ref.runtime) ["group"; "b"; "p"] ["a"; " ba "]) = ["group"; "b"].
Proof.
  split_and!.
  - refine (proj1 (proj2 (pinyin_chart_cells (rt:=Ref.runtime) ["group"; "b"; "p"]
                            ["o"; "bo"; "  "; "extra"])) 2 "  " eq_refl _).
    intros j Hj. assert (j = 3) as -> by (simpl in Hj; lia). vm_compute. discriminate.
  - refine (proj1 (proj2 (pinyin_chart_cells (rt:=Ref.runtime) ["group"; "b"; "p"]
                            ["o"; "bo"; "  "; "extra"])) 3 "extra" eq_refl _).
    intros j Hj. simpl in Hj. lia.
  - refine (proj2 (proj2 (proj2 (proj2 (pinyin_chart_cells (rt:=Ref.runtime)
              ["group"; "b"; "p"] ["a"; " ba "])))) _ _).
    + repeat (apply NoDup_cons_2; [set_solver|]). apply NoDup_nil_2.
    + simpl. lia.
Defined.

(** ** The Anki deck *)

Section anki_facts.

Lemma str_app_nil (s : string) : s +:+ "" = s.
Proof.
  induction s as [|a s IH]; [done|]. change (String a (s +:+ "") = String a s). by f_equal.
Qed.

Lemma occurs_app c a b : occurs c (a +:+ b) = occurs c a || occurs c b.
Proof.
  induction a as [|x a IH]; [done|].
  change (String x a +:+ b) with (String x (a +:+ b)). cbn [occurs].
  by rewrite IH, orb_assoc.
Qed.

Lemma split_free c s : occurs c s = false → Str.split c s = [s].
Proof.
  induction s as [|a s IH]; [done|]. cbn [occurs Str.split].
  intros [Ha Hs]%orb_false_elim. rewrite Ha, (IH Hs). done.
Qed.

Lemma split_sep c a b :
  occurs c a = false → Str.split c (a +:+ String c b) = a :: Str.split c b.
Proof.
  induction a as [|x a IH].
  - intros _. change ("" +:+ String c b) with (String c b). cbn [Str.split].
    by rewrite Ascii.eqb_refl.
  - cbn [occurs]. intros [Hx Ha]%orb_false_elim.
    change (String x a +:+ String c b) with (String x (a +:+ String c b)).
    cbn [Str.split]. by rewrite Hx, (IH Ha).
Qed.

Lemma join_cons sep x y l : Str.join sep (x :: y :: l) = x +:+ sep +:+ Str.join sep (y :: l).
Proof. done. Qed.

(** Splitting the joined columns gives the columns back. *)
Lemma split_join c fields :
  fields ≠ [] → Forall (λ f, occurs c f = false) fields →
  Str.split c (Str.join (String c EmptyString) fields) = fields.
Proof.
  intros Hne Hall. induction Hall as [|x l Hx Hall IH]; [done|].
  destruct l as [|y l]; [by apply split_free|].
  rewrite join_cons. change (String c "" +:+ ?s) with (String c s).
  rewrite split_sep by done. f_equal. by apply IH.
Qed.

Lemma occurs_join c sep l :
  occurs c sep = false → Forall (λ f, occurs c f = false) l →
  occurs c (Str.join sep l) = false.
Proof.
  intros Hsep Hall. induction Hall as [|x l Hx Hall IH]; [done|].
  destruct l as [|y l]; [done|]. rewrite join_cons, !occurs_app, Hx, Hsep. by apply IH.
Qed.

Lemma occurs_uint c d :
  (Ascii.nat_of_ascii c < 48) → occurs c (NilEmpty.string_of_uint d) = false.
Proof.
  intros Hc. assert (∀ a, 48 ≤ Ascii.nat_of_ascii a → Ascii.eqb a c = false) as Hne.
  { intros a Ha. apply Ascii.eqb_neq. intros ->. lia. }
  induction d; cbn [NilEmpty.string_of_uint occurs]; [done|..];
    rewrite IHd, Hne; try done; vm_compute; lia.
Qed.

Lemma occurs_of_int c z :
  (Ascii.nat_of_ascii c < 45) → occurs c (Str.of_int z) = false.
Proof.
  intros Hc. unfold Str.of_int, NilZero.string_of_int, NilZero.string_of_uint.
  assert (Ascii.eqb (Ascii.Ascii true false true true false true false false) c = false)
    as Hminus.
  { apply Ascii.eqb_neq. intros <-. vm_compute in Hc. lia. }
  assert (Ascii.eqb (Ascii.Ascii false false false false true true false false) c = false)
    as Hzero.
  { apply Ascii.eqb_neq. intros <-. vm_compute in Hc. lia. }
  destruct (Z.to_int z) as [d|d]; destruct d eqn:Hd; rewrite <- ?Hd;
    cbn [occurs]; rewrite ?Hminus, ?Hzero; try done;
    rewrite ?orb_false_l; apply occurs_uint; lia.
Qed.

Lemma clean_join l : Forall clean l → clean (Str.join ", " l).
Proof.
  intros Hall. split; apply occurs_join; try done.
  - eapply Forall_impl; [done|]. by intros ? [? ?].
  - eapply Forall_impl; [done|]. by intros ? [? ?].
Qed.

Lemma clean_of_int z : clean (Str.of_int z).
Proof. split; apply occurs_of_int; vm_compute; lia. Qed.

Lemma character_fields_clean char :
  clean_character char → Forall clean (character_fields char).
Proof.
  intros (? & ? & ? & ? & ?). unfold character_fields.
  repeat (apply Forall_cons_2;
          [first [assumption | by apply clean_join | apply clean_of_int]|]).
  apply Forall_nil_2.
Qed.

Lemma radical_fields_clean radical :
  clean_radical radical → Forall clean (radical_fields radical).
Proof.
  intros (? & ? & ? & ?). unfold radical_fields.
  repeat (apply Forall_cons_2; [first [assumption | apply clean_of_int | done]|]).
  apply Forall_nil_2.
Qed.

Lemma header_fields_clean : Forall clean header_fields.
Proof. unfold header_fields. repeat (apply Forall_cons_2; [done|]). apply Forall_nil_2. Qed.

Lemma anki_character_line_fields char :
  anki_character_line char = Str.join tab (character_fields char) +:+ Str.nl.
Proof.
  unfold anki_character_line, character_fields, Str.cat, Str.join.
  cbn [String.concat]. by rewrite !str_app_assoc.
Qed.

Lemma anki_radical_line_fields radical :
  anki_radical_line radical = Str.join tab (radical_fields radical) +:+ Str.nl.
Proof.
  unfold anki_radical_line, radical_fields, Str.cat, Str.join.
  cbn [String.concat]. by rewrite !str_app_assoc.
Qed.

Lemma anki_header_fields : anki_header = Str.join tab header_fields +:+ Str.nl.
Proof. done. Qed.

Lemma records_text_app a b : records_text (a ++ b) = records_text a +:+ records_text b.
Proof.
  induction a as [|x a IH]; [done|]. simpl. by rewrite IH, !str_app_assoc.
Qed.

Lemma foldl_lines {A} (line : A → string) (fields : A → list string) l text :
  (∀ x, line x = Str.join tab (fields x) +:+ Str.nl) →
  foldl (λ text x, text +:+ line x) text l = text +:+ records_text (fields <$> l).
Proof.
  intros Hline. revert text. induction l as [|x l IH]; intros text.
  - simpl. by rewrite str_app_nil.
  - cbn [foldl]. rewrite IH, Hline, fmap_cons. cbn [records_text].
    by rewrite !str_app_assoc.
Qed.

Lemma anki_deck_text include_radicals w :
  anki_deck include_radicals w = records_text (deck_records include_radicals w).
Proof.
  unfold anki_deck, deck_records.
  rewrite (foldl_lines _ character_fields) by apply anki_character_line_fields.
  rewrite anki_header_fields.
  change (header_fields :: ?l) with ([header_fields] ++ l).
  rewrite !records_text_app. destruct include_radicals.
  - rewrite (foldl_lines _ radical_fields) by apply anki_radical_line_fields.
    cbn [records_text]. by rewrite str_app_nil, !str_app_assoc.
  - cbn [records_text]. by rewrite !str_app_nil.
Qed.

Lemma split_records records :
  Forall (Forall clean) records →
  Str.split nl_char (records_text records) = (Str.join tab <$> records) ++ [""].
Proof.
  induction 1 as [|fields records Hf Hall IH]; [done|].
  cbn [records_text]. change (Str.nl +:+ ?s) with (String nl_char s).
  rewrite split_sep, IH; [done|].
  apply occurs_join; [done|]. eapply Forall_impl; [done|]. by intros ? [? ?].
Qed.

End anki_facts.

(** X19.  The Anki deck parses back.  [generate_anki_deck] writes one
    text to the output file.  When no character, pinyin, mnemonic, meaning
    or radical holds a tab or a line break, splitting this text at the
    line breaks gives the header, one record per character and, on
    request, one per radical, and the empty text after the last line
    break; every record has six columns and splits at the tabs into
    them. *)
Theorem anki_deck_parses (include_radicals : bool) (w : State) :
  Forall clean_character (dict_values (characters w)) →
  (include_radicals = true → Forall clean_radical (dict_values (radicals w))) →
  (∀ output_path,
     generate_anki_deck output_path include_radicals w
     = (set_files (<[output_path := anki_deck include_radicals w]> (files w)) w, Ok true)) ∧
  Str.split nl_char (anki_deck include_radicals w)
  = (Str.join tab <$> deck_records include_radicals w) ++ [""] ∧
  (∀ fields, fields ∈ deck_records include_radicals w →
     length fields = 6 ∧ Str.split tab_char (Str.join tab fields) = fields) ∧
  length (deck_records include_radicals w)
  = 1 + dict_len (characters w) + (if include_radicals then dict_len (radicals w) else 0).
Proof.
  intros Hc Hr.
  assert (Forall (Forall clean) (deck_records include_radicals w)) as Hclean.
  { unfold deck_records. constructor; [apply header_fields_clean|].
    apply Forall_app. split.
    - apply Forall_fmap. eapply Forall_impl; [done|]. apply character_fields_clean.
    - destruct include_radicals; [|done]. apply Forall_fmap.
      eapply Forall_impl; [by apply Hr|]. apply radical_fields_clean. }
  split_and!.
  - done.
  - rewrite anki_deck_text. by apply split_records.
  - intros fields Hin. split.
    + unfold deck_records in Hin. apply elem_of_cons in Hin as [->|Hin]; [done|].
      apply elem_of_app in Hin as [Hin|Hin].
      * by apply list_elem_of_fmap in Hin as (? & -> & _).
      * destruct include_radicals; [|by apply elem_of_nil in Hin].
        by apply list_elem_of_fmap in Hin as (? & -> & _).
    + rewrite Forall_forall in Hclean. specialize (Hclean _ Hin).
      assert (fields ≠ []) as Hne.
      { unfold deck_records in Hin. apply elem_of_cons in Hin as [->|Hin]; [done|].
        apply elem_of_app in Hin as [Hin|Hin].
        - by apply list_elem_of_fmap in Hin as (? & -> & _).
        - destruct include_radicals; [|by apply elem_of_nil in Hin].
          by apply list_elem_of_fmap in Hin as (? & -> & _). }
      apply split_join; [done|]. eapply Forall_impl; [done|]. by intros ? [? ?].
  - unfold deck_records, dict_len, dict_values. simpl. rewrite length_app, length_fmap, length_fmap.
    destruct include_radicals; simpl; rewrite ?length_fmap; lia.
Qed.

Lemma anki_deck_parses_witness :
  Forall clean_character (dict_values (characters Examples.with_lin)) ∧
  Forall clean_radical (dict_values (radicals Examples.with_lin)) ∧
  Str.split nl_char (anki_deck true Examples.with_lin)
  = (Str.join tab <$> deck_records true Examples.with_lin) ++ [""] ∧
  length (deck_records true Examples.with_lin) = 3.
Proof.
  assert (Forall clean_character (dict_values (characters Examples.with_lin))) as Hc.
  { apply Forall_cons_2; [exact clean_lin|apply Forall_nil_2]. }
  assert (Forall clean_radical (dict_values (radicals Examples.with_lin))) as Hr.
  { apply Forall_cons_2; [exact clean_mu|apply Forall_nil_2]. }
  destruct (anki_deck_parses true Examples.with_lin Hc (λ _, Hr)) as (_ & Hs & _ & Hl).
  split_and!; [exact Hc|exact Hr|exact Hs|exact Hl].
Defined.
